(** * quickjs++ : conversion traits, function wrapping, value handles and
      class registration, embedded in Rocq.

    The C++ sources are templates over native types and call into the
    QuickJS engine.  The embedding keeps the shape of the code:

    - a [JSValue] is a tag and a payload word, as [JS_VALUE_GET_TAG] and
      [JS_VALUE_GET_PTR] see it;
    - a [JSContext] is the mutable engine state the code reads and writes
      (pending exception, heap cells with their reference counts, the class
      identity allocator);
    - a C++ function that may throw is a computation in the monad [native]:
      it threads the [JSContext] and either returns or throws one of the
      three kinds of exception the catch clauses of [wrap_call] tell apart;
    - engine primitives whose implementation is not part of the wrapper are
      fields of the class [Engine]. *)

From Stdlib Require Import ZArith Lia Bool List String.
From stdpp Require Import base option list functions gmap strings.

Open Scope Z_scope.

(** ** Engine values and state *)

(** The value tags of the engine that matter to the wrapper.  The first
    six are heap references ([JS_VALUE_HAS_REF_COUNT]). *)
Inductive JSTag :=
| JS_TAG_BIG_INT | JS_TAG_SYMBOL | JS_TAG_STRING | JS_TAG_MODULE
| JS_TAG_FUNCTION_BYTECODE | JS_TAG_OBJECT
| JS_TAG_INT | JS_TAG_BOOL | JS_TAG_NULL | JS_TAG_UNDEFINED
| JS_TAG_UNINITIALIZED | JS_TAG_EXCEPTION | JS_TAG_FLOAT64.

#[global] Instance JSTag_eq_dec : EqDecision JSTag.
Proof. solve_decision. Defined.

Record JSValue := mkJSValue { js_tag : JSTag; js_ptr : Z }.

#[global] Instance JSValue_eq_dec : EqDecision JSValue.
Proof. solve_decision. Defined.

Definition JS_VALUE_GET_TAG (v : JSValue) : JSTag := js_tag v.
Definition JS_VALUE_GET_PTR (v : JSValue) : Z := js_ptr v.

Definition JS_VALUE_HAS_REF_COUNT (v : JSValue) : bool :=
  match js_tag v with
  | JS_TAG_BIG_INT | JS_TAG_SYMBOL | JS_TAG_STRING | JS_TAG_MODULE
  | JS_TAG_FUNCTION_BYTECODE | JS_TAG_OBJECT => true
  | _ => false
  end.

Definition JS_NULL : JSValue := mkJSValue JS_TAG_NULL 0.
Definition JS_UNDEFINED : JSValue := mkJSValue JS_TAG_UNDEFINED 0.
Definition JS_EXCEPTION : JSValue := mkJSValue JS_TAG_EXCEPTION 0.

Definition JS_IsNull (v : JSValue) : bool := bool_decide (js_tag v = JS_TAG_NULL).
Definition JS_IsException (v : JSValue) : bool :=
  bool_decide (js_tag v = JS_TAG_EXCEPTION).

(** Class identities ([JSClassID] is [uint32_t]); 0 is the invalid one. *)
Abbreviation JSClassID := N (only parsing).

(** Native class types (the template argument [T] of
    [js_traits<std::shared_ptr<T>>]) are named by strings. *)
Abbreviation ctype := string (only parsing).

(** Native integral types: width and signedness. *)
Inductive int_width := W8 | W16 | W32 | W64.
Record int_type := mkInt { width : int_width; is_signed : bool }.

(** The messages the wrapper formats into engine errors. *)
Inductive message :=
| Msg_expected_at_least (NArgs : nat) (argc : Z)
    (* "Expected at least %lu arguments but received %d" *)
| Msg_could_not_unwrap_integer (T : int_type)
    (* "Could not unwrap integer into %s" *)
| Msg_could_not_wrap_integer (R : int_type)
    (* "Could not wrap integer into %s" *)
| Msg_expected_type (T : ctype) (class_id : JSClassID)
    (* "Expected type %s, got object with class ID %d" *)
| Msg_opaque_null
    (* "Object's opaque pointer is null" *)
| Msg_what (what : string)
    (* "%s", ex.what() *)
| Msg_unknown_error
    (* "Unknown error" *)
| Msg_engine (code : Z).
    (* an error raised inside the engine itself *)

(** The engine's error classes used by the wrapper. *)
Inductive js_error :=
| TypeError (m : message)
| RangeError (m : message)
| InternalError (m : message).

(** A native instance under shared ownership: its address and its dynamic
    (most derived) type.  A [shared_ptr] is empty or points to one. *)
Record instance := mkInstance { address : Z; dynamic_type : ctype }.
Abbreviation shared_ptr := (option instance) (only parsing).

(** Heap cells of the engine.  A bound object carries its class identity
    and, in its opaque slot, the heap-allocated [std::shared_ptr] that
    [wrap] or the constructor wrapper stored there; the slot is modelled by
    the value of that [std::shared_ptr]. *)
Inductive cell_payload :=
| P_string (text : string)
| P_object (class_id : JSClassID) (opaque : shared_ptr)
| P_module
| P_other.

Record cell := mkCell { ref_count : Z; payload : cell_payload }.

Record JSContext := mkContext {
  current_exception : option js_error;   (* the pending exception, if any *)
  heap : gmap Z cell;                    (* live heap cells by address *)
  js_class_id_alloc : N                  (* next class identity of the runtime *)
}.

Definition set_exception (e : option js_error) (ctx : JSContext) : JSContext :=
  mkContext e (heap ctx) (js_class_id_alloc ctx).
Definition set_heap (h : gmap Z cell) (ctx : JSContext) : JSContext :=
  mkContext (current_exception ctx) h (js_class_id_alloc ctx).

(** ** Native computations *)

(** What a C++ [throw] carries, as the catch clauses of [wrap_call] and of
    [js_traits<std::optional<T>>::unwrap] distinguish it. *)
Inductive thrown :=
| qjs_exception                       (* qjs::exception(ctx) *)
| std_exception (what : string)       (* anything derived from std::exception *)
| unknown_exception.                  (* anything else *)

(** How a native call ends: it returns, it throws, or the process is brought
    down ([std::terminate] after an exception leaves a [noexcept] function,
    or the dereference of a null pointer). *)
Inductive outcome (A : Type) :=
| Returned (a : A)
| Threw (e : thrown)
| Aborted.
Arguments Returned {A} a.
Arguments Threw {A} e.
Arguments Aborted {A}.

Definition native (A : Type) : Type := JSContext → outcome A * JSContext.

#[global] Instance native_ret : MRet native :=
  λ A a ctx, (Returned a, ctx).
#[global] Instance native_bind : MBind native :=
  λ A B f m ctx,
    match m ctx with
    | (Returned a, ctx') => f a ctx'
    | (Threw e, ctx') => (Threw e, ctx')
    | (Aborted, ctx') => (Aborted, ctx')
    end.

Definition throw {A} (e : thrown) : native A := λ ctx, (Threw e, ctx).

(** [JS_ThrowTypeError], [JS_ThrowRangeError], [JS_ThrowInternalError]:
    replace the pending exception. *)
Definition JS_Throw (e : js_error) : native unit :=
  λ ctx, (Returned tt, set_exception (Some e) ctx).
Definition JS_ThrowTypeError (m : message) : native unit := JS_Throw (TypeError m).
Definition JS_ThrowRangeError (m : message) : native unit := JS_Throw (RangeError m).
Definition JS_ThrowInternalError (m : message) : native unit :=
  JS_Throw (InternalError m).

(** [JS_GetException]: hand out the pending exception and clear the slot.
    The wrapper frees the value right away, so only the clearing is kept. *)
Definition JS_GetException_and_free : native unit :=
  λ ctx, (Returned tt, set_exception None ctx).

(** [try { body } catch (const exception&) { handler }]. *)
Definition try_catch_exception {A} (body : native A) (handler : native A)
  : native A :=
  λ ctx,
    match body ctx with
    | (Threw qjs_exception, ctx') => handler ctx'
    | r => r
    end.

(** A function declared [noexcept]: an exception that would leave it
    calls [std::terminate]. *)
Definition noexcept {A} (body : native A) : native A :=
  λ ctx,
    match body ctx with
    | (Threw _, ctx') => (Aborted, ctx')
    | r => r
    end.

(** Engine primitives used through their C interface.  Status results are
    the engine's [int]: 0 on success and negative on failure for the
    conversions; negative on failure for the property setters. *)
Class Engine := {
  JS_ToBool : JSValue → JSContext → Z * JSContext;
  JS_ToInt32 : JSValue → JSContext → (Z * Z) * JSContext;
  JS_ToUint32 : JSValue → JSContext → (Z * Z) * JSContext;
  JS_ToInt64 : JSValue → JSContext → (Z * Z) * JSContext;
  JS_NewBool : bool → JSValue;
  JS_NewInt32 : Z → JSValue;
  JS_NewUint32 : Z → JSValue;
  JS_NewInt64 : Z → JSValue;
  JS_GetPropertyInt64 : JSValue → Z → JSContext → JSValue * JSContext;
  JS_GetPropertyUint32 : JSValue → Z → JSContext → JSValue * JSContext;
  JS_SetPropertyInt64 : JSValue → Z → JSValue → JSContext → Z * JSContext;
  JS_SetPropertyUint32 : JSValue → Z → JSValue → JSContext → Z * JSContext
}.

(** Lift an engine call that cannot throw a C++ exception. *)
Definition call {A} (f : JSContext → A * JSContext) : native A :=
  λ ctx, let '(a, ctx') := f ctx in (Returned a, ctx').

(** ** Integral types ([<cstdint>], [std::in_range], [static_cast]) *)

Definition sizeof (T : int_type) : Z :=
  match width T with W8 => 1 | W16 => 2 | W32 => 4 | W64 => 8 end.

Definition bits (T : int_type) : Z := 8 * sizeof T.

(** [std::numeric_limits<T>::min()] and [max()]. *)
Definition int_min (T : int_type) : Z :=
  if is_signed T then - 2 ^ (bits T - 1) else 0.
Definition int_max (T : int_type) : Z :=
  if is_signed T then 2 ^ (bits T - 1) - 1 else 2 ^ bits T - 1.

(** [std::in_range<T>(x)]: the mathematical value of [x] is representable
    in [T], whatever the type of [x]. *)
Definition in_range (T : int_type) (x : Z) : bool :=
  (int_min T <=? x) && (x <=? int_max T).

(** [static_cast<T>(x)] between integral types: reduction modulo 2^bits. *)
Definition static_cast (T : int_type) (x : Z) : Z :=
  if is_signed T
  then (x + 2 ^ (bits T - 1)) mod 2 ^ bits T - 2 ^ (bits T - 1)
  else x mod 2 ^ bits T.

Definition int32_t : int_type := mkInt W32 true.
Definition uint32_t : int_type := mkInt W32 false.
Definition int64_t : int_type := mkInt W64 true.
Definition UINT32_MAX : Z := 4294967295.

Module IntegerTraits.

(** The three-way [if constexpr] of [js_traits<Integer>::unwrap] and
    [::wrap], which picks the widened type [R] and the engine primitive. *)
Inductive widening := via_int64 | via_uint32 | via_int32.

Definition select (T : int_type) : widening :=
  if sizeof int32_t <? sizeof T then via_int64
  else if negb (is_signed T) then via_uint32
  else via_int32.

Definition widened_type (w : widening) : int_type :=
  match w with
  | via_int64 => int64_t
  | via_uint32 => uint32_t
  | via_int32 => int32_t
  end.

Section WithEngine.
Context `{Engine}.

Definition to_primitive (w : widening)
  : JSValue → JSContext → (Z * Z) * JSContext :=
  match w with
  | via_int64 => JS_ToInt64
  | via_uint32 => JS_ToUint32
  | via_int32 => JS_ToInt32
  end.

Definition new_primitive (w : widening) : Z → JSValue :=
  match w with
  | via_int64 => JS_NewInt64
  | via_uint32 => JS_NewUint32
  | via_int32 => JS_NewInt32
  end.

(** [unwrap_integer<F, R>]. *)
Definition unwrap_integer (w : widening) (T : int_type) (val : JSValue)
  : native Z :=
  '(status, result) ← call (to_primitive w val);
  if negb (status =? 0) then throw qjs_exception
  else if negb (in_range T result) then
    JS_ThrowRangeError (Msg_could_not_unwrap_integer T);; throw qjs_exception
  else mret (static_cast T result).

(** [wrap_integer<F, R>]. *)
Definition wrap_integer (w : widening) (T : int_type) (val : Z)
  : native JSValue :=
  let R := widened_type w in
  if negb (in_range R val) then
    JS_ThrowRangeError (Msg_could_not_wrap_integer R);; throw qjs_exception
  else mret (new_primitive w (static_cast R val)).

(** [js_traits<Integer>::unwrap] and [::wrap]. *)
Definition unwrap (T : int_type) (val : JSValue) : native Z :=
  unwrap_integer (select T) T val.

Definition wrap (T : int_type) (val : Z) : native JSValue :=
  wrap_integer (select T) T val.

(** The widened type in the words of the specification: int64 for types
    wider than 32 bits, uint32 for unsigned types of at most 32 bits, int32
    otherwise; and the engine primitives that read and build a number of
    that type. *)
Definition widened_in_words (T : int_type) : int_type :=
  if 32 <? bits T then int64_t
  else if is_signed T then int32_t
  else uint32_t.

Definition conversion_in_words (T : int_type)
  : JSValue → JSContext → (Z * Z) * JSContext :=
  if 32 <? bits T then JS_ToInt64
  else if is_signed T then JS_ToInt32
  else JS_ToUint32.

Definition constructor_in_words (T : int_type) : Z → JSValue :=
  if 32 <? bits T then JS_NewInt64
  else if is_signed T then JS_NewInt32
  else JS_NewUint32.

End WithEngine.
End IntegerTraits.

Module PropertyTraits.
Section WithEngine.
Context `{Engine}.

(** The [if constexpr] condition of [property_traits<Integer>]. *)
Definition routes_int64 (K : int_type) : bool :=
  (UINT32_MAX <? int_max K) || is_signed K.

(** [property_traits<Integer>::get]. *)
Definition get (K : int_type) (this_obj : JSValue) (idx : Z) : native JSValue :=
  if routes_int64 K
  then call (JS_GetPropertyInt64 this_obj (static_cast int64_t idx))
  else call (JS_GetPropertyUint32 this_obj (static_cast uint32_t idx)).

(** [property_traits<Integer>::set]. *)
Definition set (K : int_type) (this_obj : JSValue) (idx : Z) (val : JSValue)
  : native unit :=
  if routes_int64 K then
    status ← call (JS_SetPropertyInt64 this_obj (static_cast int64_t idx) val);
    if status <? 0 then throw qjs_exception else mret tt
  else
    status ← call (JS_SetPropertyUint32 this_obj (static_cast uint32_t idx) val);
    if status <? 0 then throw qjs_exception else mret tt.

End WithEngine.
End PropertyTraits.

Module BoolTraits.
Section WithEngine.
Context `{Engine}.

(** [js_traits<bool>::unwrap], declared [noexcept]. *)
Definition unwrap (val : JSValue) : native bool :=
  r ← call (JS_ToBool val);
  mret (0 <? r).

(** [js_traits<bool>::wrap]. *)
Definition wrap (val : bool) : native JSValue := mret (JS_NewBool val).

End WithEngine.
End BoolTraits.

(** ** Conversion traits as values

    [js_traits<T>] for a native type whose values live in [V]: the pair of
    static functions [unwrap] and [wrap]. *)
Module Trait.
Record js_traits (V : Type) := mk {
  unwrap : JSValue → native V;
  wrap : V → native JSValue
}.
Arguments mk {V} _ _.
Arguments unwrap {V} _ _.
Arguments wrap {V} _ _.
End Trait.
Abbreviation js_traits := Trait.js_traits.

Module OptionalTraits.
Section WithElement.
Context {V : Type} (T : js_traits V).

(** [js_traits<std::optional<T>>::unwrap], declared [noexcept]. *)
Definition unwrap (val : JSValue) : native (option V) :=
  noexcept
    (try_catch_exception
       (if JS_IsNull val then mret None
        else x ← Trait.unwrap T val; mret (Some x))
       ((* ignore and clear exception *)
        JS_GetException_and_free;; mret None)).

(** [js_traits<std::optional<T>>::wrap], declared [noexcept]. *)
Definition wrap (val : option V) : native JSValue :=
  noexcept
    (match val with
     | Some x => Trait.wrap T x
     | None => mret JS_NULL
     end).

End WithElement.
End OptionalTraits.

(** ** Function wrapping and invocation *)

Module FunctionWrapping.

(** [int] operands meet [std::size_t] operands after conversion to
    [std::size_t] (64 bits). *)
Definition to_size_t (x : Z) : Z := x mod 2 ^ 64.
Definition PTRDIFF_MAX : Z := 2 ^ 63 - 1.

(** The arguments of a call expression are evaluated in an order the
    language leaves to the compiler; these are the two orders compilers
    follow. *)
Inductive evaluation_order := left_to_right | right_to_left.

(** The native values of all parameter and result types are kept in one
    type [V]. *)
Section WithValues.
Context {V : Type}.

(** [js_traits<T>::unwrap] of a parameter type. *)
Definition unwrap_fn : Type := JSValue → native V.

(** A declared parameter: of type [T], or of type [rest<T>]. *)
Inductive param :=
| param_plain (T : unwrap_fn)
| param_rest (T : unwrap_fn).

(** An unwrapped argument: one native value, or the vector of a [rest<T>]. *)
Inductive argument :=
| arg_single (x : V)
| arg_rest (xs : list V).

(** [JSValueConst* argv]: the values found from the pointer on. *)
Definition argv_t : Type := nat → JSValue.

(** [unwrap_arg_impl<T, I, NArgs>::unwrap]. *)
Definition unwrap_arg_impl (T : unwrap_fn) (I NArgs : nat)
    (argc : Z) (argv : argv_t) : native V :=
  if to_size_t argc <=? Z.of_nat I then
    JS_ThrowTypeError (Msg_expected_at_least NArgs argc);;
    throw qjs_exception
  else T (argv I).

(** [std::vector::reserve]: [std::length_error] beyond [max_size()], which
    is at most [PTRDIFF_MAX]; requests of at most [INT_MAX] elements are
    taken to succeed.  The text of [what()] is the library's. *)
Definition vector_reserve (n : Z) : native unit :=
  if PTRDIFF_MAX <? n then throw (std_exception "vector::reserve")
  else mret tt.

(** The loop [for (i = I; i < argc; ++i) result.push_back(unwrap(argv[i]))],
    with [count] iterations left. *)
Fixpoint push_back_loop (T : unwrap_fn) (argv : argv_t) (i count : nat)
  : native (list V) :=
  match count with
  | O => mret []
  | S count' =>
      x ← T (argv i);
      xs ← push_back_loop T argv (S i) count';
      mret (x :: xs)
  end.

(** [unwrap_arg_impl<rest<T>, I, NArgs>::unwrap]. *)
Definition unwrap_arg_impl_rest (T : unwrap_fn) (I NArgs : nat)
    (argc : Z) (argv : argv_t) : native (list V) :=
  vector_reserve (to_size_t (argc - Z.of_nat I));;
  push_back_loop T argv I (Z.to_nat (to_size_t argc - Z.of_nat I)).

(** The [static_assert] of the [rest<T>] specialisation. *)
Definition static_assert_rest (p : param) (I NArgs : nat) : bool :=
  match p with
  | param_plain _ => true
  | param_rest _ => Nat.eqb I (NArgs - 1)
  end.

(** Selection between the primary template and the specialisation. *)
Definition unwrap_arg (p : param) (I NArgs : nat) (argc : Z) (argv : argv_t)
  : native argument :=
  match p with
  | param_plain T => x ← unwrap_arg_impl T I NArgs argc argv; mret (arg_single x)
  | param_rest T => xs ← unwrap_arg_impl_rest T I NArgs argc argv; mret (arg_rest xs)
  end.

(** [unwrap_args_impl<Tuple, Offset, Is...>]: [ps] are the tuple elements
    from [Offset] on, [I] is [Is - Offset] of the first of them and [NArgs]
    is [sizeof...(Is)].  The tuple keeps the declared order whatever the
    order of evaluation. *)
Fixpoint unwrap_args_impl (o : evaluation_order) (ps : list param)
    (I NArgs : nat) (argc : Z) (argv : argv_t) : native (list argument) :=
  match ps with
  | [] => mret []
  | p :: ps' =>
      match o with
      | left_to_right =>
          a ← unwrap_arg p I NArgs argc argv;
          rest ← unwrap_args_impl o ps' (S I) NArgs argc argv;
          mret (a :: rest)
      | right_to_left =>
          rest ← unwrap_args_impl o ps' (S I) NArgs argc argv;
          a ← unwrap_arg p I NArgs argc argv;
          mret (a :: rest)
      end
  end.

Fixpoint unwrap_args_impl_compiles (ps : list param) (I NArgs : nat) : bool :=
  match ps with
  | [] => true
  | p :: ps' =>
      static_assert_rest p I NArgs && unwrap_args_impl_compiles ps' (S I) NArgs
  end.

(** [unwrap_args<Tuple, TupleOffset>]. *)
Definition unwrap_args (o : evaluation_order) (Tuple : list param)
    (TupleOffset : nat) (argc : Z) (argv : argv_t) : native (list argument) :=
  let ps := drop TupleOffset Tuple in
  unwrap_args_impl o ps 0 (length ps) argc argv.

Definition unwrap_args_compiles (Tuple : list param) (TupleOffset : nat) : bool :=
  let ps := drop TupleOffset Tuple in
  unwrap_args_impl_compiles ps 0 (length ps).

(** A native callable as [function_traits] describes it. *)
Record callable := mk_callable {
  owner_type : option unwrap_fn;
    (* [js_traits<ClassType*>::unwrap] for a pointer to member function *)
  args : list param;
    (* [function_traits<Function>::args] *)
  function : list argument → native V;
    (* [std::apply(f, tuple)] *)
  result_wrap : option (V → native JSValue)
    (* [js_traits<R>::wrap], or nothing when [R] is [void] *)
}.

(** [std::tuple_cat(a, b)], its two operands evaluated in order [o]. *)
Definition tuple_cat (o : evaluation_order)
    (a b : native (list argument)) : native (list argument) :=
  match o with
  | left_to_right => x ← a; y ← b; mret (x ++ y)
  | right_to_left => y ← b; x ← a; mret (x ++ y)
  end.

(** [&this_val] seen as an argument vector. *)
Definition addr_of (this_val : JSValue) : argv_t := λ _, this_val.

(** [apply_unwrapped<PassThis>].  With [PassThis] and no parameter at all
    the template is ill-formed ([std::tuple_element_t<0, std::tuple<>>]);
    [compiles] excludes it. *)
Definition apply_unwrapped (o : evaluation_order) (PassThis : bool)
    (f : callable) (this_val : JSValue) (argc : Z) (argv : argv_t) : native V :=
  match owner_type f with
  | Some Owner =>
      if PassThis then
        tuple ← tuple_cat o
          (x ← unwrap_arg_impl Owner 0 1 1 (addr_of this_val); mret [arg_single x])
          (unwrap_args o (args f) 0 argc argv);
        function f tuple
      else
        tuple ← tuple_cat o
          (x ← unwrap_arg_impl Owner 0 1 1 argv; mret [arg_single x])
          (unwrap_args o (args f) 0 (argc - 1) (λ i, argv (S i)));
        function f tuple
  | None =>
      if PassThis then
        match args f with
        | FirstArg :: _ =>
            tuple ← tuple_cat o
              (a ← unwrap_arg FirstArg 0 1 1 (addr_of this_val); mret [a])
              (unwrap_args o (args f) 1 argc argv);
            function f tuple
        | [] => λ ctx, (Aborted, ctx)
        end
      else
        tuple ← unwrap_args o (args f) 0 argc argv;
        function f tuple
  end.

(** The static assertions met while [apply_unwrapped<PassThis>] is
    instantiated for [f]. *)
Definition compiles (PassThis : bool) (f : callable) : bool :=
  match owner_type f with
  | Some _ => unwrap_args_compiles (args f) 0
  | None =>
      if PassThis then
        match args f with
        | FirstArg :: _ =>
            static_assert_rest FirstArg 0 1 && unwrap_args_compiles (args f) 1
        | [] => false
        end
      else unwrap_args_compiles (args f) 0
  end.

(** [wrap_call<PassThis>]: every native failure becomes the engine's
    exception state and the sentinel [JS_EXCEPTION]. *)
Definition wrap_call (o : evaluation_order) (PassThis : bool)
    (f : callable) (this_val : JSValue) (argc : Z) (argv : argv_t)
  : native JSValue :=
  λ ctx,
    let body : native JSValue :=
      match result_wrap f with
      | None => apply_unwrapped o PassThis f this_val argc argv;; mret JS_NULL
      | Some wrap_R =>
          r ← apply_unwrapped o PassThis f this_val argc argv; wrap_R r
      end in
    match body ctx with
    | (Threw qjs_exception, ctx') => (Returned JS_EXCEPTION, ctx')
    | (Threw (std_exception what), ctx') =>
        (Returned JS_EXCEPTION,
         set_exception (Some (InternalError (Msg_what what))) ctx')
    | (Threw unknown_exception, ctx') =>
        (Returned JS_EXCEPTION,
         set_exception (Some (InternalError Msg_unknown_error)) ctx')
    | r => r
    end.

(** The binding the specification describes for parameters that are all
    required: parameter [I], [I + 1], ... is unwrapped from [argv[I]],
    [argv[I + 1]], ...; the tuple keeps the declared order. *)
Fixpoint unwrap_each (o : evaluation_order) (Ts : list unwrap_fn) (I : nat)
    (argv : argv_t) : native (list argument) :=
  match Ts with
  | [] => mret []
  | T :: Ts' =>
      match o with
      | left_to_right =>
          x ← T (argv I);
          rest ← unwrap_each o Ts' (S I) argv;
          mret (arg_single x :: rest)
      | right_to_left =>
          rest ← unwrap_each o Ts' (S I) argv;
          x ← T (argv I);
          mret (arg_single x :: rest)
      end
  end.

(** How a callable whose parameters are all required is bound:
    [receiver] is the conversion applied to [this], if there is one, and
    [Ts] are the conversions of the positional parameters.  Without
    pass-receiver a callable that is not a pointer to member function has
    no receiver; with pass-receiver its first parameter is the receiver,
    and the object of a pointer to member function is.  A pointer to
    member function wrapped without pass-receiver takes its object from
    the argument vector and is not bound in this way. *)
Definition bound_as (PassThis : bool) (f : callable)
    (receiver : option unwrap_fn) (Ts : list unwrap_fn) : Prop :=
  match owner_type f, PassThis with
  | None, false => receiver = None ∧ args f = map param_plain Ts
  | None, true =>
      ∃ R, receiver = Some R ∧ args f = param_plain R :: map param_plain Ts
  | Some Owner, true => receiver = Some Owner ∧ args f = map param_plain Ts
  | Some _, false => False
  end.

(** The binding the specification describes for such a callable: the
    receiver, if any, is unwrapped from [this] and leads the tuple, and
    positional parameter [i] is unwrapped from [argv[i]]. *)
Definition bind_required (o : evaluation_order) (receiver : option unwrap_fn)
    (Ts : list unwrap_fn) (this_val : JSValue) (argv : argv_t)
  : native (list argument) :=
  match receiver with
  | None => unwrap_each o Ts 0 argv
  | Some R =>
      tuple_cat o (x ← R this_val; mret [arg_single x]) (unwrap_each o Ts 0 argv)
  end.

(** The capture the specification describes for a rest parameter: the
    given values converted one by one, in call order. *)
Fixpoint unwrap_in_order (T : unwrap_fn) (vals : list JSValue) : native (list V) :=
  match vals with
  | [] => mret []
  | val :: vals' =>
      x ← T val;
      xs ← unwrap_in_order T vals';
      mret (x :: xs)
  end.

End WithValues.
Arguments param : clear implicits.
Arguments argument : clear implicits.
Arguments callable : clear implicits.
Arguments unwrap_fn : clear implicits.

End FunctionWrapping.

(** ** Value handles ([qjs::value]) *)

Module ValueHandle.

(** Reference counting of the engine: [JS_DupValue] adds one reference to
    a value that has a reference count, [JS_FreeValue] removes one and
    frees the cell when none is left.  Neither looks at its context
    argument.  Both reach the count through the pointer of the value: on
    a cell that is not live ([dangling], below) the behaviour of the
    engine is undefined.  The two functions are total, and leave the heap
    alone there, so that they describe the engine on live cells only; a
    program of handle operations ([HandlePool.step]) stops where it would
    pass a dangling pointer to either of them. *)
Definition JS_DupValue (v : JSValue) (st : JSContext) : JSValue * JSContext :=
  if JS_VALUE_HAS_REF_COUNT v then
    (v, set_heap
          (alter (λ c, mkCell (ref_count c + 1) (payload c)) (js_ptr v) (heap st))
          st)
  else (v, st).

Definition JS_FreeValue (v : JSValue) (st : JSContext) : JSContext :=
  if JS_VALUE_HAS_REF_COUNT v then
    match heap st !! js_ptr v with
    | Some c =>
        if ref_count c - 1 <=? 0
        then set_heap (delete (js_ptr v) (heap st)) st
        else set_heap (<[js_ptr v := mkCell (ref_count c - 1) (payload c)]> (heap st)) st
    | None => st
    end
  else st.

(** A value with a reference count whose cell is not live. *)
Definition dangling (v : JSValue) (st : JSContext) : bool :=
  JS_VALUE_HAS_REF_COUNT v && bool_decide (heap st !! js_ptr v = None).

(** [struct value { JSContext* ctx; JSValue v; }]; a null [ctx] is [None]. *)
Record value := mkValue { ctx : option N; v : JSValue }.

(** [value(const value& val)]. *)
Definition copy_construct (val : value) (st : JSContext) : value * JSContext :=
  let '(v', st') := JS_DupValue (v val) st in
  (mkValue (ctx val) v', st').

(** [value(value&& val)]: the new handle, and [val] as it is left. *)
Definition move_construct (val : value) : value * value :=
  (mkValue (ctx val) (v val), mkValue None (v val)).

(** [~value()]. *)
Definition destroy (val : value) (st : JSContext) : JSContext :=
  match ctx val with
  | Some _ =>
      if bool_decide (JS_VALUE_GET_TAG (v val) ≠ JS_TAG_MODULE)
      then JS_FreeValue (v val) st
      else st
  | None => st
  end.

(** [value& operator=(value val)]: the by-value parameter [val] and
    [*this] swap their fields, and the parameter dies at the end of the
    call.  The result is [*this] afterwards. *)
Definition assign (this val : value) (st : JSContext) : value * JSContext :=
  let this' := mkValue (ctx val) (v val) in
  let val' := mkValue (ctx this) (v this) in
  (this', destroy val' st).

(** [JSValue release()]: the raw value, and the handle as it is left. *)
Definition release (val : value) : JSValue * value :=
  (v val, mkValue None (v val)).

(** [bool operator==(JSValueConst other)]. *)
Definition eq_raw (this : value) (other : JSValue) : bool :=
  bool_decide (JS_VALUE_GET_TAG (v this) = JS_VALUE_GET_TAG other)
  && bool_decide (JS_VALUE_GET_PTR (v this) = JS_VALUE_GET_PTR other).

(** [bool operator==(const value& val)]. *)
Definition eq (this val : value) : bool := eq_raw this (v val).

(** [bool operator!=(const value& val)]. *)
Definition neq (this val : value) : bool := negb (eq this val).

(** Scenario: [n] handles copy-constructed from [val], one after the
    other; and the destruction of a list of handles. *)
Fixpoint copies (n : nat) (val : value) (st : JSContext)
  : list value * JSContext :=
  match n with
  | O => ([], st)
  | S n' =>
      let '(c, st1) := copy_construct val st in
      let '(cs, st2) := copies n' val st1 in
      (c :: cs, st2)
  end.

Fixpoint destroy_all (l : list value) (st : JSContext) : JSContext :=
  match l with
  | [] => st
  | h :: l' => destroy_all l' (destroy h st)
  end.

(** [add_refs k v st]: the state [st] with [k] more references on [v]. *)
Definition add_refs (k : Z) (v : JSValue) (st : JSContext) : JSContext :=
  if JS_VALUE_HAS_REF_COUNT v then
    set_heap
      (alter (λ c, mkCell (ref_count c + k) (payload c)) (js_ptr v) (heap st)) st
  else st.

(** The reference count of the cell a value points to, if it is live. *)
Definition ref_count_of (v : JSValue) (st : JSContext) : option Z :=
  ref_count <$> heap st !! js_ptr v.

End ValueHandle.

(** ** Class registration and downcasts ([js_traits<std::shared_ptr<T>>]) *)

Module ClassRegistry.

(** Converting [std::shared_ptr<D>] to [std::shared_ptr<T>] for a base [T]
    of [D]: the empty pointer stays empty; otherwise the address moves to
    the [T] subobject, [to_base] bytes into the [D] object (0 for a first
    non-virtual base), and the dynamic type stays. *)
Definition convert (to_base : Z) (ptr : shared_ptr) : shared_ptr :=
  (λ i, mkInstance (address i + to_base) (dynamic_type i)) <$> ptr.

(** [ptr_cast_fcn_t], a function stored in a cast table for the class
    identity of a derived class.  The tables are public static members,
    which [unwrap] reads whoever filled them; the functions considered
    are those the sources are written to store: the [unwrap] of the
    derived class [D] with its result converted to the pointer type of
    the table (the argument in [ensure_can_cast_to_base]), or a derived
    cast function whose result is converted once more (the lambda in
    [register_derived_class]).  Each carries the offset its conversion
    adds. *)
Inductive ptr_cast_fcn :=
| cast_unwrap (D : ctype) (to_base : Z)
| cast_upcast (T : ctype) (to_base : Z) (derived_cast_fcn : ptr_cast_fcn).

(** The hook [std::function<void(JSClassID, ptr_cast_fcn_t)>].  It starts
    empty, and the one assignment to it in the sources is in the body of
    [register_derived_class], which is never instantiated (below). *)
Inductive register_fcn :=
| no_target.

(** The static data members of [js_traits<std::shared_ptr<T>>] that have
    an initial value (lines 563-572). *)
Record statics := mk_statics {
  qjs_class_id : JSClassID;
  register_with_base : register_fcn;
  ptr_cast_fcn_map : gmap N ptr_cast_fcn
}.

Abbreviation registry := (string → statics) (only parsing).

(** The initial values of the static members. *)
Definition initial : statics := mk_statics 0%N no_target ∅.

(** [is_registered()]. *)
Definition is_registered (reg : registry) (T : ctype) : bool :=
  negb (qjs_class_id (reg T) =? 0)%N.

(** *** Member templates and the names they use

    A member of [js_traits<std::shared_ptr<D>>] named inside a template is
    looked up when the template is instantiated, and the instantiation is
    ill-formed when the struct declares no member of that name.  These
    are the members the struct declares (lines 560-734). *)
Definition members : list string :=
  ["qjs_class_id"; "ptr_cast_fcn_t"; "register_with_base"; "ptr_cast_fcn_map";
   "is_registered"; "register_derived_class"; "ensure_can_cast_to_base";
   "mark_offsets"; "register_class"; "unwrap"; "wrap"].

Definition declared (name : string) : bool := bool_decide (name ∈ members).

Definition instantiates (names : list string) : bool := forallb declared names.

(** The members of [js_traits<std::shared_ptr<...>>] that the body of
    [register_derived_class<D>] names (lines 591-608): of its own struct
    [ptr_cast_fcn_map], [register_with_base] and, in the lambda,
    [register_derived_class]; of [js_traits<std::shared_ptr<D>>] the type
    [ptr_cast_fcn_t] and the member [registerWithBase], which it reads
    (line 599) and assigns (line 600). *)
Definition named_in_register_derived_class : list string :=
  ["ptr_cast_fcn_t"; "ptr_cast_fcn_map"; "register_with_base";
   "registerWithBase"; "register_derived_class"].

Definition register_derived_class_instantiates : bool :=
  instantiates named_in_register_derived_class.

(** [js_traits<std::shared_ptr<T>>::ensure_can_cast_to_base<B>]: the
    overload for [B] equal to [T] has an empty body (line 612); the other
    one (lines 616-620) names [is_registered], [qjs_class_id] and
    [unwrap] and calls
    [js_traits<std::shared_ptr<B>>::register_derived_class<T>]. *)
Definition ensure_can_cast_to_base_instantiates (T B : ctype) : bool :=
  bool_decide (B = T)
  || (instantiates ["is_registered"; "qjs_class_id"; "unwrap";
                    "register_derived_class"]
      && register_derived_class_instantiates).

(** [class_registrar<T>::base<B>()] (context.h, lines 198-212) names
    [QJSClassId] of [js_traits<std::shared_ptr<B>>] and
    [ensureCanCastToBase] of [js_traits<std::shared_ptr<T>>]. *)
Definition class_registrar_base_instantiates : bool :=
  instantiates ["QJSClassId"; "ensureCanCastToBase"].

(** *** Unwrapping *)

(** [JS_GetClassID(val)]: the class identity of an object, 0 (the invalid
    identity) for anything else. *)
Definition JS_GetClassID (val : JSValue) (st : JSContext) : JSClassID :=
  match js_tag val, heap st !! js_ptr val with
  | JS_TAG_OBJECT, Some (mkCell _ (P_object class_id _)) => class_id
  | _, _ => 0%N
  end.

(** [JS_GetOpaque2(ctx, val, class_id)]: the opaque slot of an object of
    that class; otherwise the engine raises a type error and the result is
    the null pointer. *)
Definition JS_GetOpaque2 (val : JSValue) (class_id : JSClassID) (st : JSContext)
  : option shared_ptr * JSContext :=
  match js_tag val, heap st !! js_ptr val with
  | JS_TAG_OBJECT, Some (mkCell _ (P_object id opaque)) =>
      if decide (id = class_id) then (Some opaque, st)
      else (None, set_exception (Some (TypeError (Msg_engine 0))) st)
  | _, _ => (None, set_exception (Some (TypeError (Msg_engine 0))) st)
  end.

(** The null check that ends [unwrap]. *)
Definition check_not_null (ptr : shared_ptr) : native shared_ptr :=
  match ptr with
  | None => JS_ThrowInternalError Msg_opaque_null;; throw qjs_exception
  | Some _ => mret ptr
  end.

(** The result of a cast function, converted. *)
Definition converted (to_base : Z)
    (r : option (outcome shared_ptr * JSContext))
  : option (outcome shared_ptr * JSContext) :=
  match r with
  | Some (Returned ptr, st') => Some (Returned (convert to_base ptr), st')
  | other => other
  end.

(** Calling a stored cast function.  [unwrap_of] is the [unwrap] of the
    classes. *)
Fixpoint call_ptr_cast_fcn
    (unwrap_of : ctype → JSValue → JSContext → option (outcome shared_ptr * JSContext))
    (f : ptr_cast_fcn) (val : JSValue) (st : JSContext)
  : option (outcome shared_ptr * JSContext) :=
  match f with
  | cast_unwrap D to_base => converted to_base (unwrap_of D val st)
  | cast_upcast _ to_base derived_cast_fcn =>
      converted to_base (call_ptr_cast_fcn unwrap_of derived_cast_fcn val st)
  end.

(** [js_traits<std::shared_ptr<T>>::unwrap].  A stored cast function ends
    in the [unwrap] of a derived class; [fuel] bounds the depth of these
    calls and [None] means that it ran out. *)
Fixpoint unwrap (fuel : nat) (reg : registry) (T : ctype) (val : JSValue)
    (st : JSContext) : option (outcome shared_ptr * JSContext) :=
  match fuel with
  | O => None
  | S fuel' =>
      if JS_IsNull val then Some (Returned None, st)
      else
        let class_id := JS_GetClassID val st in
        let fetched : option (outcome shared_ptr * JSContext) :=
          if decide (class_id = qjs_class_id (reg T)) then
            (* of class T *)
            match JS_GetOpaque2 val class_id st with
            | (Some ptr, st') => Some (Returned ptr, st')
            | (None, st') => Some (Aborted, st')
            end
          else
            match ptr_cast_fcn_map (reg T) !! class_id with
            | Some f =>
                (* of a class derived from T *)
                call_ptr_cast_fcn (unwrap fuel' reg) f val st
            | None =>
                (* none of the above *)
                Some ((JS_ThrowTypeError (Msg_expected_type T class_id);;
                       throw qjs_exception) st)
            end in
        match fetched with
        | Some (Returned ptr, st') => Some (check_not_null ptr st')
        | other => other
        end
  end.

(** The offsets that the conversions of a stored cast function add up
    to, and the class whose [unwrap] it ends in. *)
Fixpoint offset_of (f : ptr_cast_fcn) : Z :=
  match f with
  | cast_unwrap _ to_base => to_base
  | cast_upcast _ to_base derived_cast_fcn => to_base + offset_of derived_cast_fcn
  end.

Fixpoint target (f : ptr_cast_fcn) : ctype :=
  match f with
  | cast_unwrap D _ => D
  | cast_upcast _ _ derived_cast_fcn => target derived_cast_fcn
  end.

(** The offset between the address stored in an object of class
    [class_id] and the address that unwrapping it as [shared_ptr<T>]
    gives: none for an object of class [T] itself, and otherwise the
    offsets of the cast function stored for [class_id], then those met
    while the class it ends in unwraps the object. *)
Fixpoint offset_to (fuel : nat) (reg : registry) (T : ctype)
    (class_id : JSClassID) : Z :=
  match fuel with
  | O => 0
  | S fuel' =>
      if decide (class_id = qjs_class_id (reg T)) then 0
      else
        match ptr_cast_fcn_map (reg T) !! class_id with
        | Some f => offset_of f + offset_to fuel' reg (target f) class_id
        | None => 0
        end
  end.

End ClassRegistry.

(** ** A small engine

    The engine itself is not part of the sources (quickjs_fwd.h only
    declares it), so the wrapper is verified against the [Engine]
    interface.  This instance follows the number representation of
    QuickJS, and the definitions can be run on it: a number is a 32-bit
    integer or else a double ([JS_NewInt64] and [JS_NewUint32] store an
    integer outside the int32 range as a double, that is, rounded to 53
    significant bits); the integer conversions read a 32-bit integer as
    it is and a double modulo 2^32 or 2^64, or as 0 when its exponent is
    past the last bit that matters.  The rest is kept small: the
    conversion of anything that is not a number fails, and properties
    live nowhere.  The payload word of a double holds its value, which in
    these conversions is always an integer. *)
Module SmallEngine.

(** [(double)v] for an integer: the nearest double, ties to even. *)
Definition to_double (z : Z) : Z :=
  let n := Z.abs z in
  if n <=? 2 ^ 53 then z
  else
    let e := Z.log2 n - 52 in
    let q := n / 2 ^ e in
    let r := n mod 2 ^ e in
    let half := 2 ^ (e - 1) in
    let q' := if (half <? r) || ((r =? half) && Z.odd q) then q + 1 else q in
    Z.sgn z * (q' * 2 ^ e).

(** [JS_ToInt32], [JS_ToUint32] and [JS_ToInt64] at the result type [T]. *)
Definition to_number (T : int_type) (val : JSValue) (st : JSContext)
  : (Z * Z) * JSContext :=
  match js_tag val with
  | JS_TAG_INT | JS_TAG_BOOL => ((0, static_cast T (js_ptr val)), st)
  | JS_TAG_FLOAT64 =>
      ((0, if Z.abs (js_ptr val) <? 2 ^ (bits T + 52)
           then static_cast T (js_ptr val) else 0), st)
  | _ => ((-1, 0), set_exception (Some (TypeError (Msg_engine 1))) st)
  end.

Definition to_bool (val : JSValue) (st : JSContext) : Z * JSContext :=
  match js_tag val with
  | JS_TAG_EXCEPTION => (-1, st)
  | JS_TAG_NULL | JS_TAG_UNDEFINED | JS_TAG_UNINITIALIZED => (0, st)
  | JS_TAG_INT | JS_TAG_FLOAT64 | JS_TAG_BOOL =>
      (if js_ptr val =? 0 then 0 else 1, st)
  | _ => (1, st)
  end.

Definition set_property (this_obj : JSValue) (idx : Z) (val : JSValue)
    (st : JSContext) : Z * JSContext :=
  match js_tag this_obj with
  | JS_TAG_OBJECT => (1, st)
  | _ => (-1, set_exception (Some (TypeError (Msg_engine 2))) st)
  end.

Definition engine : Engine := {|
  JS_ToBool := to_bool;
  JS_ToInt32 := to_number int32_t;
  JS_ToUint32 := to_number uint32_t;
  JS_ToInt64 := to_number int64_t;
  JS_NewBool b := mkJSValue JS_TAG_BOOL (if b then 1 else 0);
  JS_NewInt32 x := mkJSValue JS_TAG_INT x;
  JS_NewUint32 x := mkJSValue (if x <=? 2147483647 then JS_TAG_INT else JS_TAG_FLOAT64) x;
  JS_NewInt64 x :=
    if (-2147483648 <=? x) && (x <=? 2147483647)
    then mkJSValue JS_TAG_INT x
    else mkJSValue JS_TAG_FLOAT64 (to_double x);
  JS_GetPropertyInt64 _ _ st := (JS_UNDEFINED, st);
  JS_GetPropertyUint32 _ _ st := (JS_UNDEFINED, st);
  JS_SetPropertyInt64 := set_property;
  JS_SetPropertyUint32 := set_property
|}.

Definition empty_context : JSContext := mkContext None ∅ 1%N.

(** [js_traits<int8_t>] on this engine. *)
Definition int8_traits : js_traits Z :=
  Trait.mk (@IntegerTraits.unwrap engine (mkInt W8 true))
           (@IntegerTraits.wrap engine (mkInt W8 true)).

End SmallEngine.

(** ** Further integral constants *)

Definition uint64_t : int_type := mkInt W64 false.
Definition INT64_MAX : Z := 9223372036854775807.

(** [js_traits<Integer>] as a trait, as [js_traits<std::optional<Integer>>]
    uses it. *)
Definition integer_traits `{Engine} (T : int_type) : js_traits Z :=
  Trait.mk (IntegerTraits.unwrap T) (IntegerTraits.wrap T).

(** ** Binding of a parameter list that ends in a rest parameter *)

Module FunctionBinding.
Import FunctionWrapping.
Section WithValues.
Context {V : Type}.

(** The binding, in the words of the parameter declaration: the required
    parameters [Ts] take the first arguments, one each, and the rest
    parameter of element type [R] takes all the arguments after them, in
    call order.  The two groups are converted in the order [o]. *)
Definition bind_with_rest (o : evaluation_order) (Ts : list (unwrap_fn V))
    (R : unwrap_fn V) (argc : Z) (argv : argv_t) : native (list (argument V)) :=
  let n := length Ts in
  let trailing := map argv (seq n (Z.to_nat argc - n)) in
  match o with
  | left_to_right =>
      fixed ← unwrap_each o Ts 0 argv;
      xs ← unwrap_in_order R trailing;
      mret (fixed ++ [arg_rest xs])
  | right_to_left =>
      xs ← unwrap_in_order R trailing;
      fixed ← unwrap_each o Ts 0 argv;
      mret (fixed ++ [arg_rest xs])
  end.

End WithValues.
End FunctionBinding.

(** ** Programs over handles *)

Module HandlePool.
Import ValueHandle.

(** A handle owns a reference when its destructor gives one back: its
    context is not null, its value is not a module and has a reference
    count. *)
Definition owning (h : value) : bool :=
  bool_decide (ctx h ≠ None)
  && bool_decide (JS_VALUE_GET_TAG (v h) ≠ JS_TAG_MODULE)
  && JS_VALUE_HAS_REF_COUNT (v h).

(** The handles alive at one point of a program, and what the program
    does next with them: [value b(a)], [value b(std::move(a))], the end
    of the lifetime of [a], [a.release()], [a = b] and
    [a = std::move(b)].  Handles are named by their position. *)
Inductive op :=
| op_copy (i : nat)
| op_move (i : nat)
| op_destroy (i : nat)
| op_release (i : nat)
| op_assign_copy (i j : nat)
| op_assign_move (i j : nat).

(** What an operation does to the handles and to the heap. *)
Definition effect (o : op) (pool : list value) (st : JSContext)
  : list value * JSContext :=
  match o with
  | op_copy i =>
      match pool !! i with
      | Some h =>
          let '(c, st') := copy_construct h st in (pool ++ [c], st')
      | None => (pool, st)
      end
  | op_move i =>
      match pool !! i with
      | Some h =>
          let '(n, h') := move_construct h in (<[i := h']> pool ++ [n], st)
      | None => (pool, st)
      end
  | op_destroy i =>
      match pool !! i with
      | Some h => (delete i pool, destroy h st)
      | None => (pool, st)
      end
  | op_release i =>
      match pool !! i with
      | Some h => let '(_, h') := release h in (<[i := h']> pool, st)
      | None => (pool, st)
      end
  | op_assign_copy i j =>
      match pool !! i, pool !! j with
      | Some this, Some src =>
          let '(param, st1) := copy_construct src st in
          let '(this', st2) := assign this param st1 in
          (<[i := this']> pool, st2)
      | _, _ => (pool, st)
      end
  | op_assign_move i j =>
      match pool !! j with
      | Some src =>
          let '(param, src') := move_construct src in
          let pool1 := <[j := src']> pool in
          match pool1 !! i with
          | Some this =>
              let '(this', st2) := assign this param st in
              (<[i := this']> pool1, st2)
          | None => (pool, st)
          end
      | None => (pool, st)
      end
  end.

(** An operation has undefined behaviour when it passes a dangling
    pointer to the engine: the copy constructor duplicates the value of
    its source whatever the context of the source is, moved-from and
    released handles included; the destructor, also that of the
    parameter of an assignment, frees the value of a handle that owns a
    reference. *)
Definition undefined (o : op) (pool : list value) (st : JSContext) : bool :=
  match o with
  | op_copy i =>
      match pool !! i with
      | Some h => dangling (v h) st
      | None => false
      end
  | op_move _ | op_release _ => false
  | op_destroy i =>
      match pool !! i with
      | Some h => owning h && dangling (v h) st
      | None => false
      end
  | op_assign_copy i j =>
      match pool !! i, pool !! j with
      | Some this, Some src =>
          dangling (v src) st
          || (owning this && dangling (v this) (copy_construct src st).2)
      | _, _ => false
      end
  | op_assign_move i j =>
      match pool !! j with
      | Some src =>
          match <[j := (move_construct src).2]> pool !! i with
          | Some this => owning this && dangling (v this) st
          | None => false
          end
      | None => false
      end
  end.

(** One operation, and a program: [None] where the behaviour is
    undefined. *)
Definition step (o : op) (pool : list value) (st : JSContext)
  : option (list value * JSContext) :=
  if undefined o pool st then None else Some (effect o pool st).

Fixpoint run (ops : list op) (pool : list value) (st : JSContext)
  : option (list value * JSContext) :=
  match ops with
  | [] => Some (pool, st)
  | o :: ops' =>
      match step o pool st with
      | Some (pool', st') => run ops' pool' st'
      | None => None
      end
  end.

(** A handle that can be copied: it owns its reference, or its value has
    no reference count.  A program is disciplined when, along its run,
    it copies such handles only. *)
Definition keeps_reference (h : value) : bool :=
  owning h || negb (JS_VALUE_HAS_REF_COUNT (v h)).

Definition copies_keeper (o : op) (pool : list value) : bool :=
  match o with
  | op_copy j | op_assign_copy _ j =>
      match pool !! j with
      | Some src => keeps_reference src
      | None => true
      end
  | _ => true
  end.

Fixpoint disciplined (ops : list op) (pool : list value) (st : JSContext) : bool :=
  match ops with
  | [] => true
  | o :: ops' =>
      copies_keeper o pool
      && disciplined ops' (effect o pool st).1 (effect o pool st).2
  end.

(** The number of references on the cell at [p] that the handle, and the
    handles of a pool, own. *)
Definition weight (p : Z) (h : value) : Z :=
  if owning h && bool_decide (js_ptr (v h) = p) then 1 else 0.

Fixpoint owners (p : Z) (pool : list value) : Z :=
  match pool with
  | [] => 0
  | h :: pool' => weight p h + owners p pool'
  end.

(** Every cell that is counted as owned is live, and holds at least the
    references counted; and the same for the handles of a pool. *)
Definition counted (cnt : Z → Z) (st : JSContext) : Prop :=
  ∀ p, 0 < cnt p → ∃ c, heap st !! p = Some c ∧ cnt p ≤ ref_count c.

Definition pool_ok (pool : list value) (st : JSContext) : Prop :=
  counted (λ p, owners p pool) st.

End HandlePool.

(** ** Non-owning pointers: [js_traits<T*>] *)

Module PointerTraits.

(** [std::shared_ptr<T>::get()]: the address held, [None] for [nullptr]. *)
Definition get (ptr : shared_ptr) : option Z := address <$> ptr.

(** [js_traits<T*>::unwrap]. *)
Definition unwrap (fuel : nat) (reg : string → ClassRegistry.statics) (T : ctype)
    (val : JSValue) (st : JSContext) : option (outcome (option Z) * JSContext) :=
  if JS_IsNull val then Some (Returned None, st)
  else
    match ClassRegistry.unwrap fuel reg T val st with
    | Some (Returned ptr, st') => Some (Returned (get ptr), st')
    | Some (Threw e, st') => Some (Threw e, st')
    | Some (Aborted, st') => Some (Aborted, st')
    | None => None
    end.

End PointerTraits.

(** ** [detail::to_uri] *)

Module Uri.
Section WithFilesystem.

(** [std::filesystem::absolute(filename).generic_string()], which throws
    [std::filesystem::filesystem_error] where the file system cannot make
    the path absolute (the empty path, for one); and whether [_WIN32] is
    defined. *)
Variable absolute : string → outcome string.
Variable win32 : bool.

(** [s.find(needle) != std::string::npos]. *)
Definition contains (needle s : string) : bool :=
  match String.index 0 needle s with
  | Some _ => true
  | None => false
  end.

Definition to_uri (filename : string) : outcome string :=
  if contains "://" filename then Returned filename
  else
    match absolute filename with
    | Returned abspath =>
        (* magic for drives on Windows *)
        let abspath := if win32 then String.append "/" abspath else abspath in
        Returned (String.append "file://" abspath)
    | Threw e => Threw e
    | Aborted => Aborted
    end.

End WithFilesystem.
End Uri.

(** ** [detail::unwrap_free], [js_traits<JSValue>] and [js_traits<value>] *)

Module Detail.
Import ValueHandle.

(** [js_traits<JSValue>::unwrap] and [wrap]. *)
Definition unwrap_JSValue (val : JSValue) : native JSValue :=
  λ st, let '(v', st') := JS_DupValue val st in (Returned v', st').
Definition wrap_JSValue (val : JSValue) : JSValue := val.

(** [js_traits<value>::unwrap] for the context pointer [c], and [wrap]:
    the raw value, and the parameter as it dies. *)
Definition unwrap_value (c : option N) (val : JSValue) : native value :=
  λ st, let '(v', st') := JS_DupValue val st in (Returned (mkValue c v'), st').
Definition wrap_value (val : value) : JSValue * value := release val.

(** [unwrap_free<T>] for a [T] that is not void: the value is freed after
    the conversion, also when the conversion throws. *)
Definition unwrap_free {V : Type} (T : JSValue → native V) (val : JSValue)
  : native V :=
  λ st,
    match T val st with
    | (Returned result, st') => (Returned result, JS_FreeValue val st')
    | (Threw e, st') => (Threw e, JS_FreeValue val st')
    | (Aborted, st') => (Aborted, st')
    end.

(** [js_traits<void>::unwrap], and [unwrap_free<void>], which frees the
    value first. *)
Definition unwrap_void (val : JSValue) : native unit :=
  if JS_IsException val then throw qjs_exception else mret tt.

Definition unwrap_free_void (val : JSValue) : native unit :=
  λ st, unwrap_void val (JS_FreeValue val st).

End Detail.

(** ** [js_traits<std::function<R(Args...)>>] *)

Module StdFunction.
Import ValueHandle.
Section WithEngine.
Context {V : Type}.

(** [JS_Call(ctx, func_obj, this_obj, argc, argv)] of the engine. *)
Variable JS_Call :
  JSValue → JSValue → list JSValue → JSContext → JSValue * JSContext.

(** [unwrap]: the lambda returned captures [func_obj = JS_DupValue(ctx, val)]. *)
Definition unwrap (val : JSValue) (st : JSContext) : JSValue * JSContext :=
  JS_DupValue val st.

(** [detail::wrap_args]: the arguments are wrapped from the first to the
    last. *)
Fixpoint wrap_args (wraps : list (native JSValue)) : native (list JSValue) :=
  match wraps with
  | [] => mret []
  | w :: ws => a ← w; rest ← wrap_args ws; mret (a :: rest)
  end.

Definition free_all (argv : list JSValue) (st : JSContext) : JSContext :=
  fold_left (λ s a, JS_FreeValue a s) argv st.

(** The call operator of the lambda, for the result conversion
    [unwrap_free_R] and the wrappers of the arguments given. *)
Definition invoke (unwrap_free_R : JSValue → native V)
    (wraps : list (native JSValue)) (func_obj : JSValue) : native V :=
  λ st0,
    match wrap_args wraps st0 with
    | (Returned argv, st) =>
        let '(result, st1) := JS_Call func_obj JS_UNDEFINED argv st in
        let st2 := JS_FreeValue func_obj st1 in
        let st3 := free_all argv st2 in
        if JS_IsException result then (Threw qjs_exception, st3)
        else unwrap_free_R result st3
    | (Threw e, st) => (Threw e, st)
    | (Aborted, st) => (Aborted, st)
    end.

(** The state after [k] calls of the lambda without arguments. *)
Fixpoint invocations (unwrap_free_R : JSValue → native V) (func_obj : JSValue)
    (k : nat) (st : JSContext) : JSContext :=
  match k with
  | O => st
  | S k' =>
      invocations unwrap_free_R func_obj k' (invoke unwrap_free_R [] func_obj st).2
  end.

End WithEngine.
End StdFunction.

(** * Properties *)

(** ** Integral types *)

Lemma static_cast_in_range (T : int_type) (x : Z) :
  in_range T x = true → static_cast T x = x.
Proof.
  unfold in_range, static_cast, int_min, int_max.
  intros Hr. apply andb_true_iff in Hr as [Hlo Hhi].
  apply Z.leb_le in Hlo, Hhi.
  destruct T as [w s]; cbn [is_signed] in *.
  destruct s.
  - assert (Hb : 2 ^ bits (mkInt w true) = 2 * 2 ^ (bits (mkInt w true) - 1))
      by (destruct w; reflexivity).
    rewrite Z.mod_small by lia. lia.
  - apply Z.mod_small. lia.
Qed.

Lemma select_in_words `{Engine} (T : int_type) :
  IntegerTraits.widened_type (IntegerTraits.select T)
  = IntegerTraits.widened_in_words T
  ∧ IntegerTraits.to_primitive (IntegerTraits.select T)
    = IntegerTraits.conversion_in_words T
  ∧ IntegerTraits.new_primitive (IntegerTraits.select T)
    = IntegerTraits.constructor_in_words T.
Proof. destruct T as [[] []]; repeat split; reflexivity. Qed.

Lemma integer_wrap_in_words `{Engine} (T : int_type) (x : Z) (st : JSContext) :
  IntegerTraits.wrap T x st
  = if in_range (IntegerTraits.widened_in_words T) x
    then (Returned (IntegerTraits.constructor_in_words T x), st)
    else (Threw qjs_exception,
          set_exception
            (Some (RangeError
                     (Msg_could_not_wrap_integer (IntegerTraits.widened_in_words T))))
            st).
Proof.
  destruct (select_in_words T) as (HR & _ & Hnew).
  unfold IntegerTraits.wrap, IntegerTraits.wrap_integer.
  rewrite HR, Hnew.
  destruct (in_range (IntegerTraits.widened_in_words T) x) eqn:E; cbn [negb].
  - rewrite (static_cast_in_range _ _ E). reflexivity.
  - reflexivity.
Qed.

Lemma integer_unwrap_in_words `{Engine} (T : int_type) (val : JSValue)
    (st st' : JSContext) (status result : Z) :
  IntegerTraits.conversion_in_words T val st = ((status, result), st') →
  IntegerTraits.unwrap T val st
  = if negb (status =? 0) then (Threw qjs_exception, st')
    else if in_range T result then (Returned result, st')
    else (Threw qjs_exception,
          set_exception (Some (RangeError (Msg_could_not_unwrap_integer T))) st').
Proof.
  destruct (select_in_words T) as (_ & Hto & _).
  intros E. unfold IntegerTraits.unwrap, IntegerTraits.unwrap_integer.
  rewrite Hto. unfold mbind, native_bind, call. rewrite E. cbn beta iota.
  destruct (negb (status =? 0)); [reflexivity |].
  destruct (in_range T result) eqn:HT; cbn [negb].
  - unfold mret, native_ret. rewrite (static_cast_in_range _ _ HT). reflexivity.
  - reflexivity.
Qed.

Lemma in_range_int64_below_2_53 (x : Z) :
  Z.abs x ≤ 2 ^ 53 → in_range int64_t x = true.
Proof.
  intros Hx. apply andb_true_iff.
  change (int_min int64_t) with (-9223372036854775808).
  change (int_max int64_t) with 9223372036854775807.
  change (2 ^ 53) with 9007199254740992 in Hx.
  split; apply Z.leb_le; lia.
Qed.

Lemma small_engine_reads_back_int64 (x : Z) (st : JSContext) :
  Z.abs x ≤ 2 ^ 53 →
  SmallEngine.to_number int64_t (@JS_NewInt64 SmallEngine.engine x) st
  = ((0, x), st).
Proof.
  intros Hx.
  pose proof (static_cast_in_range _ _ (in_range_int64_below_2_53 x Hx)) as Hcast.
  cbn [SmallEngine.engine JS_NewInt64].
  destruct ((-2147483648 <=? x) && (x <=? 2147483647));
    unfold SmallEngine.to_number; cbn [js_tag js_ptr].
  - rewrite Hcast. reflexivity.
  - unfold SmallEngine.to_double.
    destruct (Z.abs x <=? 2 ^ 53) eqn:E; [| apply Z.leb_gt in E; lia].
    destruct (Z.abs x <? 2 ^ (bits int64_t + 52)) eqn:E';
      [| apply Z.ltb_ge in E'; change (bits int64_t + 52) with 116 in E'; lia].
    rewrite Hcast. reflexivity.
Qed.

Lemma small_engine_reads_back_int32 (x : Z) (st : JSContext) :
  in_range int32_t x = true →
  SmallEngine.to_number int32_t (@JS_NewInt32 SmallEngine.engine x) st
  = ((0, x), st).
Proof.
  intros HR. cbn [SmallEngine.engine JS_NewInt32].
  unfold SmallEngine.to_number; cbn [js_tag js_ptr].
  rewrite (static_cast_in_range _ _ HR). reflexivity.
Qed.

Lemma small_engine_reads_back_uint32 (x : Z) (st : JSContext) :
  in_range uint32_t x = true →
  SmallEngine.to_number uint32_t (@JS_NewUint32 SmallEngine.engine x) st
  = ((0, x), st).
Proof.
  intros HR. cbn [SmallEngine.engine JS_NewUint32].
  unfold SmallEngine.to_number.
  destruct (x <=? 2147483647); cbn [js_tag js_ptr].
  - rewrite (static_cast_in_range _ _ HR). reflexivity.
  - destruct (Z.abs x <? 2 ^ (bits uint32_t + 52)) eqn:E'.
    + rewrite (static_cast_in_range _ _ HR). reflexivity.
    + apply Z.ltb_ge in E'. change (bits uint32_t + 52) with 84 in E'.
      apply andb_true_iff in HR as [Hlo Hhi]. apply Z.leb_le in Hlo, Hhi.
      change (int_min uint32_t) with 0 in Hlo.
      change (int_max uint32_t) with 4294967295 in Hhi. lia.
Qed.

Lemma widened_in_words_narrow (T : int_type) :
  bits T ≤ 32 →
  IntegerTraits.widened_in_words T = (if is_signed T then int32_t else uint32_t)
  ∧ int_min (if is_signed T then int32_t else uint32_t) ≤ int_min T
  ∧ int_max T ≤ int_max (if is_signed T then int32_t else uint32_t).
Proof.
  destruct T as [[] []]; intros Hb;
    try (exfalso; apply Hb; reflexivity);
    (split; [reflexivity | split; discriminate]).
Qed.

Lemma widened_in_words_wide (T : int_type) :
  32 < bits T → IntegerTraits.widened_in_words T = int64_t.
Proof.
  destruct T as [[] []]; intros Hb; try discriminate Hb; reflexivity.
Qed.

(** What the small engine reads back: a stored integer of magnitude at
    most 2^53 comes back as it is through the conversion of the widened
    type. *)
Lemma small_engine_reads_back (T : int_type) (x : Z) (st : JSContext) :
  in_range T x = true →
  Z.abs x ≤ 2 ^ 53 →
  in_range (IntegerTraits.widened_in_words T) x = true
  ∧ @IntegerTraits.conversion_in_words SmallEngine.engine T
      (@IntegerTraits.constructor_in_words SmallEngine.engine T x) st
    = ((0, x), st).
Proof.
  intros HT Hx.
  unfold IntegerTraits.conversion_in_words, IntegerTraits.constructor_in_words.
  destruct (Z_lt_le_dec 32 (bits T)) as [Hw | Hn].
  - rewrite (widened_in_words_wide T Hw).
    apply Z.ltb_lt in Hw. rewrite Hw.
    split; [exact (in_range_int64_below_2_53 x Hx) |].
    exact (small_engine_reads_back_int64 x st Hx).
  - destruct (widened_in_words_narrow T Hn) as (-> & Hlo & Hhi).
    apply Z.ltb_ge in Hn. rewrite Hn.
    assert (HR : in_range (if is_signed T then int32_t else uint32_t) x = true).
    { apply andb_true_iff in HT as [Hlo' Hhi']. apply Z.leb_le in Hlo', Hhi'.
      apply andb_true_iff. split; apply Z.leb_le; lia. }
    split; [exact HR |].
    destruct (is_signed T).
    + exact (small_engine_reads_back_int32 x st HR).
    + exact (small_engine_reads_back_uint32 x st HR).
Qed.

(** C3, as amended: for every integral type [T], [wrap] and [unwrap] go
    through the widened type the claim names for [T] (int64 for types
    wider than 32 bits, uint32 for unsigned types of at most 32 bits,
    int32 otherwise): [wrap] checks the range of the widened type and
    builds the number with its constructor, [unwrap] converts with its
    conversion, gives up when that fails, raises a range error and throws
    when the widened result lies outside the range of [T], and returns
    the result otherwise, never narrowing.  For [x] in the range of [T]
    and of the widened type, [unwrap (wrap x)] returns [x] exactly when
    the engine reads back [x] from the number it built for [x]; and with
    the number representation of QuickJS it does so for every [x] of
    magnitude at most 2^53. *)
Theorem integer_round_trip_and_range_check :
  (∀ `{Engine} (T : int_type) (x : Z) (st : JSContext),
      IntegerTraits.wrap T x st
      = if in_range (IntegerTraits.widened_in_words T) x
        then (Returned (IntegerTraits.constructor_in_words T x), st)
        else (Threw qjs_exception,
              set_exception
                (Some (RangeError
                         (Msg_could_not_wrap_integer
                            (IntegerTraits.widened_in_words T)))) st))
  ∧ (∀ `{Engine} (T : int_type) (val : JSValue) (st st' : JSContext)
       (status result : Z),
      IntegerTraits.conversion_in_words T val st = ((status, result), st') →
      IntegerTraits.unwrap T val st
      = if negb (status =? 0) then (Threw qjs_exception, st')
        else if in_range T result then (Returned result, st')
        else (Threw qjs_exception,
              set_exception
                (Some (RangeError (Msg_could_not_unwrap_integer T))) st'))
  ∧ (∀ `{Engine} (T : int_type) (x : Z) (st st' : JSContext),
      in_range T x = true →
      in_range (IntegerTraits.widened_in_words T) x = true →
      (v ← IntegerTraits.wrap T x; IntegerTraits.unwrap T v) st = (Returned x, st')
      ↔ IntegerTraits.conversion_in_words T
          (IntegerTraits.constructor_in_words T x) st = ((0, x), st'))
  ∧ (∀ (T : int_type) (x : Z) (st : JSContext),
      in_range T x = true →
      Z.abs x ≤ 2 ^ 53 →
      (v ← @IntegerTraits.wrap SmallEngine.engine T x;
       @IntegerTraits.unwrap SmallEngine.engine T v) st
      = (Returned x, st)).
Proof.
  assert (Hiff : ∀ (E : Engine) (T : int_type) (x : Z) (st st' : JSContext),
            in_range T x = true →
            in_range (IntegerTraits.widened_in_words T) x = true →
            (v ← IntegerTraits.wrap T x; IntegerTraits.unwrap T v) st
            = (Returned x, st')
            ↔ IntegerTraits.conversion_in_words T
                (IntegerTraits.constructor_in_words T x) st = ((0, x), st')).
  { intros E T x st st' HT HR.
    unfold mbind, native_bind. rewrite integer_wrap_in_words, HR.
    destruct (IntegerTraits.conversion_in_words T
                (IntegerTraits.constructor_in_words T x) st)
      as [[status result] st1] eqn:Eto.
    rewrite (integer_unwrap_in_words T _ st st1 status result Eto).
    split.
    - destruct (status =? 0) eqn:Es; cbn [negb]; [| discriminate].
      apply Z.eqb_eq in Es. subst status.
      destruct (in_range T result); [| discriminate].
      intros [= -> ->]. reflexivity.
    - intros [= -> -> ->]. cbn. rewrite HT. reflexivity. }
  split; [| split; [| split]].
  - intros E T x st. apply integer_wrap_in_words.
  - intros E T val st st' status result. apply integer_unwrap_in_words.
  - exact Hiff.
  - intros T x st HT Hx.
    destruct (small_engine_reads_back T x st HT Hx) as [HR Hback].
    apply (Hiff SmallEngine.engine T x st st HT HR). exact Hback.
Qed.

Lemma integer_round_trip_and_range_check_witness :
  let E := SmallEngine.engine in
  (v ← IntegerTraits.wrap (mkInt W8 true) (-128);
   IntegerTraits.unwrap (mkInt W8 true) v) SmallEngine.empty_context
  = (Returned (-128), SmallEngine.empty_context)
  ∧ (v ← IntegerTraits.wrap uint64_t (2 ^ 53);
     IntegerTraits.unwrap uint64_t v) SmallEngine.empty_context
    = (Returned (2 ^ 53), SmallEngine.empty_context)
  ∧ IntegerTraits.unwrap (mkInt W8 true) (mkJSValue JS_TAG_INT 128)
      SmallEngine.empty_context
    = (Threw qjs_exception,
       set_exception (Some (RangeError (Msg_could_not_unwrap_integer (mkInt W8 true))))
         SmallEngine.empty_context).
Proof.
  intros E. split; [| split].
  - apply (proj2 (proj2 (proj2 integer_round_trip_and_range_check))
             (mkInt W8 true) (-128) SmallEngine.empty_context);
      [reflexivity | cbn; lia].
  - apply (proj2 (proj2 (proj2 integer_round_trip_and_range_check))
             uint64_t (2 ^ 53) SmallEngine.empty_context);
      [reflexivity | cbn; lia].
  - apply (proj1 (proj2 integer_round_trip_and_range_check) E
             (mkInt W8 true) (mkJSValue JS_TAG_INT 128)
             SmallEngine.empty_context SmallEngine.empty_context 0 128).
    reflexivity.
Defined.

(** C3, as stated, fails on the number representation of QuickJS: the
    64-bit integer 2^53 + 1 is in the range of int64, its widened type,
    and comes back from [unwrap (wrap x)] as 2^53; the largest 64-bit
    integer comes back as the smallest; and the largest unsigned 64-bit
    integer representable in int64 comes back as a range error. *)
Lemma integers_above_2_53_do_not_round_trip :
  let E := SmallEngine.engine in
  let st := SmallEngine.empty_context in
  in_range int64_t (2 ^ 53 + 1) = true
  ∧ in_range (IntegerTraits.widened_type (IntegerTraits.select int64_t))
      (2 ^ 53 + 1) = true
  ∧ (v ← IntegerTraits.wrap int64_t (2 ^ 53 + 1);
     IntegerTraits.unwrap int64_t v) st
    = (Returned (2 ^ 53), st)
  ∧ (v ← IntegerTraits.wrap int64_t INT64_MAX;
     IntegerTraits.unwrap int64_t v) st
    = (Returned (- 2 ^ 63), st)
  ∧ (v ← IntegerTraits.wrap uint64_t INT64_MAX;
     IntegerTraits.unwrap uint64_t v) st
    = (Threw qjs_exception,
       set_exception (Some (RangeError (Msg_could_not_unwrap_integer uint64_t))) st).
Proof. cbv zeta. repeat split; vm_compute; reflexivity. Qed.

(** ** Property access by integer key *)

(** C8: for every integral key type [K], [get] and [set] go through the
    signed 64-bit accessor of the engine when [K] is signed or its maximum
    exceeds [UINT32_MAX], and through the unsigned 32-bit accessor
    otherwise; and [set] throws the bridge's exception exactly when the
    accessor reports a negative status. *)
Theorem integer_key_routing `{Engine} :
  ∀ (K : int_type) (this_obj val : JSValue) (idx : Z) (st : JSContext),
    (is_signed K = true ∨ UINT32_MAX < int_max K →
       PropertyTraits.get K this_obj idx st
       = call (JS_GetPropertyInt64 this_obj (static_cast int64_t idx)) st
       ∧ PropertyTraits.set K this_obj idx val st
         = let '(status, st') :=
             JS_SetPropertyInt64 this_obj (static_cast int64_t idx) val st in
           if status <? 0 then (Threw qjs_exception, st') else (Returned tt, st'))
    ∧ (is_signed K = false ∧ int_max K ≤ UINT32_MAX →
       PropertyTraits.get K this_obj idx st
       = call (JS_GetPropertyUint32 this_obj (static_cast uint32_t idx)) st
       ∧ PropertyTraits.set K this_obj idx val st
         = let '(status, st') :=
             JS_SetPropertyUint32 this_obj (static_cast uint32_t idx) val st in
           if status <? 0 then (Threw qjs_exception, st') else (Returned tt, st')).
Proof.
  intros K this_obj val idx st.
  unfold PropertyTraits.get, PropertyTraits.set, PropertyTraits.routes_int64.
  split.
  - intros Hc.
    assert (Hr : (UINT32_MAX <? int_max K) || is_signed K = true).
    { destruct Hc as [-> | Hm]; [apply orb_true_r |].
      apply Z.ltb_lt in Hm. rewrite Hm. reflexivity. }
    rewrite Hr. split; [reflexivity |].
    unfold mbind, native_bind, call.
    destruct (JS_SetPropertyInt64 _ _ _ st) as [status st'].
    destruct (status <? 0); reflexivity.
  - intros [Hs Hm].
    assert (Hr : (UINT32_MAX <? int_max K) || is_signed K = false).
    { rewrite Hs, orb_false_r. apply Z.ltb_ge. exact Hm. }
    rewrite Hr. split; [reflexivity |].
    unfold mbind, native_bind, call.
    destruct (JS_SetPropertyUint32 _ _ _ st) as [status st'].
    destruct (status <? 0); reflexivity.
Qed.

Lemma integer_key_routing_witness :
  @PropertyTraits.get SmallEngine.engine (mkInt W16 false) JS_NULL 3
    SmallEngine.empty_context
  = call (@JS_GetPropertyUint32 SmallEngine.engine JS_NULL (static_cast uint32_t 3))
      SmallEngine.empty_context
  ∧ @PropertyTraits.set SmallEngine.engine (mkInt W16 false) JS_NULL 3 JS_UNDEFINED
      SmallEngine.empty_context
    = let '(status, st') :=
        @JS_SetPropertyUint32 SmallEngine.engine JS_NULL (static_cast uint32_t 3)
          JS_UNDEFINED SmallEngine.empty_context in
      if status <? 0 then (Threw qjs_exception, st') else (Returned tt, st').
Proof.
  apply (proj2 (@integer_key_routing SmallEngine.engine (mkInt W16 false)
                  JS_NULL JS_UNDEFINED 3 SmallEngine.empty_context)).
  split; [reflexivity | vm_compute; discriminate].
Defined.

(** ** Booleans *)

(** C9: unwrapping as [bool] always returns, in the state the engine's
    to-boolean primitive leaves; the result is [true] exactly when the
    primitive reports a strictly positive number, so a negative status
    yields [false] and no error. *)
Theorem bool_unwrap_is_total `{Engine} :
  ∀ (val : JSValue) (st : JSContext),
    ∃ b : bool,
      BoolTraits.unwrap val st = (Returned b, snd (JS_ToBool val st))
      ∧ (b = true ↔ 0 < fst (JS_ToBool val st))
      ∧ (fst (JS_ToBool val st) < 0 → b = false).
Proof.
  intros val st.
  exists (0 <? fst (JS_ToBool val st)).
  unfold BoolTraits.unwrap, mbind, native_bind, call, mret, native_ret.
  destruct (JS_ToBool val st) as [r st']. cbn.
  split; [reflexivity |]. split.
  - apply Z.ltb_lt.
  - intros Hneg. apply Z.ltb_ge. lia.
Qed.

(** ** Optional values *)

(** C4, as amended: [js_traits<std::optional<T>>::unwrap] never throws;
    a null value gives the empty optional; a value that [T] unwraps gives
    that value; when the unwrap of [T] throws the bridge's exception the
    pending exception is cleared and the result is the empty optional;
    when it throws anything else, the exception meets the [noexcept] of
    the function and the program is terminated.  [wrap] maps the empty
    optional to [JS_NULL] and a present value to what [T]'s [wrap]
    returns, and terminates the program when [T]'s [wrap] throws. *)
Theorem optional_unwrap_swallows_failures {V : Type} (T : js_traits V) :
  ∀ (val : JSValue) (st : JSContext),
    (∀ e st', OptionalTraits.unwrap T val st ≠ (Threw e, st'))
    ∧ (JS_IsNull val = true →
       OptionalTraits.unwrap T val st = (Returned None, st))
    ∧ (∀ x st', JS_IsNull val = false →
         Trait.unwrap T val st = (Returned x, st') →
         OptionalTraits.unwrap T val st = (Returned (Some x), st'))
    ∧ (∀ st', JS_IsNull val = false →
         Trait.unwrap T val st = (Threw qjs_exception, st') →
         OptionalTraits.unwrap T val st = (Returned None, set_exception None st'))
    ∧ (∀ e st', JS_IsNull val = false →
         Trait.unwrap T val st = (Threw e, st') →
         e ≠ qjs_exception →
         OptionalTraits.unwrap T val st = (Aborted, st'))
    ∧ (∀ st', JS_IsNull val = false →
         Trait.unwrap T val st = (Aborted, st') →
         OptionalTraits.unwrap T val st = (Aborted, st'))
    ∧ OptionalTraits.wrap T None st = (Returned JS_NULL, st)
    ∧ (∀ x v st', Trait.wrap T x st = (Returned v, st') →
         OptionalTraits.wrap T (Some x) st = (Returned v, st'))
    ∧ (∀ x e st', Trait.wrap T x st = (Threw e, st') →
         OptionalTraits.wrap T (Some x) st = (Aborted, st'))
    ∧ (∀ x st', Trait.wrap T x st = (Aborted, st') →
         OptionalTraits.wrap T (Some x) st = (Aborted, st')).
Proof.
  intros val st.
  unfold OptionalTraits.unwrap, OptionalTraits.wrap, noexcept,
    try_catch_exception, JS_GetException_and_free,
    mbind, native_bind, mret, native_ret.
  repeat split.
  - intros e st'.
    destruct (JS_IsNull val); [discriminate |].
    destruct (Trait.unwrap T val st) as [[x | [ | what | ] | ] st1];
      discriminate.
  - intros ->. reflexivity.
  - intros x st' -> ->. reflexivity.
  - intros st' -> ->. reflexivity.
  - intros e st' -> -> He. destruct e; [congruence | reflexivity | reflexivity].
  - intros st' -> ->. reflexivity.
  - intros x v st' ->. reflexivity.
  - intros x e st' ->. reflexivity.
  - intros x st' ->. reflexivity.
Qed.

Lemma optional_unwrap_swallows_failures_witness :
  OptionalTraits.unwrap SmallEngine.int8_traits (mkJSValue JS_TAG_INT 1000)
    SmallEngine.empty_context
  = (Returned None, SmallEngine.empty_context).
Proof.
  apply (proj1 (proj2 (proj2 (proj2
           (optional_unwrap_swallows_failures SmallEngine.int8_traits
              (mkJSValue JS_TAG_INT 1000) SmallEngine.empty_context))))
           (set_exception
              (Some (RangeError (Msg_could_not_unwrap_integer (mkInt W8 true))))
              SmallEngine.empty_context));
    reflexivity.
Defined.

(** C4, as stated, fails.  With an element type whose unwrap throws
    something other than the bridge's exception (here the allocation
    failure of a text conversion), the unwrap of the optional does not
    return the empty optional: the program is terminated, with the
    pending exception as it was.  And a present 64-bit unsigned value
    above [INT64_MAX] is not mapped to what the element's wrap gives, a
    thrown range error: the program is terminated. *)
Lemma optional_does_not_swallow_every_failure :
  let text : js_traits string :=
    Trait.mk (λ _, throw (std_exception "std::bad_alloc")) (λ _, mret JS_UNDEFINED) in
  let st := SmallEngine.empty_context in
  JS_IsNull (mkJSValue JS_TAG_STRING 64) = false
  ∧ OptionalTraits.unwrap text (mkJSValue JS_TAG_STRING 64) st = (Aborted, st)
  ∧ Trait.wrap (@integer_traits SmallEngine.engine uint64_t) (2 ^ 63) st
    = (Threw qjs_exception,
       set_exception (Some (RangeError (Msg_could_not_wrap_integer int64_t))) st)
  ∧ OptionalTraits.wrap (@integer_traits SmallEngine.engine uint64_t)
      (Some (2 ^ 63)) st
    = (Aborted,
       set_exception (Some (RangeError (Msg_could_not_wrap_integer int64_t))) st).
Proof. cbv zeta. repeat split; vm_compute; reflexivity. Qed.

(** ** Equality of handles *)

(** C10: two handles are equal exactly when their raw values have the
    same tag and the same payload word; so two live strings with the same
    text at different addresses are unequal. *)
Theorem handle_equality_is_identity :
  (∀ a b : ValueHandle.value,
      ValueHandle.eq a b = true
      ↔ js_tag (ValueHandle.v a) = js_tag (ValueHandle.v b)
        ∧ js_ptr (ValueHandle.v a) = js_ptr (ValueHandle.v b))
  ∧ (∀ (st : JSContext) (c1 c2 : option N) (p q r1 r2 : Z) (text : string),
      p ≠ q →
      heap st !! p = Some (mkCell r1 (P_string text)) →
      heap st !! q = Some (mkCell r2 (P_string text)) →
      ValueHandle.eq (ValueHandle.mkValue c1 (mkJSValue JS_TAG_STRING p))
                     (ValueHandle.mkValue c2 (mkJSValue JS_TAG_STRING q))
      = false).
Proof.
  split.
  - intros a b. unfold ValueHandle.eq, ValueHandle.eq_raw,
      JS_VALUE_GET_TAG, JS_VALUE_GET_PTR.
    rewrite andb_true_iff, !bool_decide_eq_true. reflexivity.
  - intros st c1 c2 p q r1 r2 text Hpq _ _.
    unfold ValueHandle.eq, ValueHandle.eq_raw, JS_VALUE_GET_TAG, JS_VALUE_GET_PTR.
    cbn. rewrite (bool_decide_eq_false_2 (p = q)) by exact Hpq.
    apply andb_false_r.
Qed.

Lemma handle_equality_is_identity_witness :
  ValueHandle.eq
    (ValueHandle.mkValue (Some 1%N) (mkJSValue JS_TAG_STRING 16))
    (ValueHandle.mkValue (Some 1%N) (mkJSValue JS_TAG_STRING 32))
  = false.
Proof.
  apply (proj2 handle_equality_is_identity
           (mkContext None
              (<[16 := mkCell 1 (P_string "same text")]>
                 (<[32 := mkCell 1 (P_string "same text")]> ∅)) 1%N)
           (Some 1%N) (Some 1%N) 16 32 1 1 "same text").
  - discriminate.
  - reflexivity.
  - reflexivity.
Defined.

(** ** Reference discipline of handles *)

Section HandleDiscipline.
Import ValueHandle.

Lemma context_eta (st : JSContext) (h : gmap Z cell) :
  h = heap st → set_heap h st = st.
Proof. intros ->. destruct st; reflexivity. Qed.

Lemma add_refs_zero v st : add_refs 0 v st = st.
Proof.
  unfold add_refs. destruct (JS_VALUE_HAS_REF_COUNT v); [| reflexivity].
  apply context_eta. apply map_eq. intros i.
  rewrite lookup_alter. case_decide; [| reflexivity]. subst i.
  destruct (heap st !! js_ptr v) as [[rc pl] |]; cbn; [| reflexivity].
  do 2 f_equal. lia.
Qed.

Lemma add_refs_dup v st k :
  (JS_DupValue v (add_refs k v st)) = (v, add_refs (k + 1) v st).
Proof.
  unfold JS_DupValue, add_refs.
  destruct (JS_VALUE_HAS_REF_COUNT v); [| reflexivity].
  f_equal. unfold set_heap; cbn. f_equal.
  apply map_eq. intros i.
  destruct (decide (js_ptr v = i)) as [<- | Hne].
  - rewrite !lookup_alter, !decide_True by reflexivity.
    destruct (heap st !! js_ptr v) as [[rc pl] |]; cbn; [| reflexivity].
    do 2 f_equal. lia.
  - rewrite !lookup_alter, !decide_False by exact Hne. reflexivity.
Qed.

Lemma add_refs_free v st k :
  0 ≤ k →
  (JS_VALUE_HAS_REF_COUNT v = true →
   ∃ c, heap st !! js_ptr v = Some c ∧ 1 ≤ ref_count c) →
  JS_FreeValue v (add_refs (k + 1) v st) = add_refs k v st.
Proof.
  intros Hk Hlive. unfold JS_FreeValue, add_refs.
  destruct (JS_VALUE_HAS_REF_COUNT v); [| reflexivity].
  destruct Hlive as [[rc pl] [Hc Hrc]]; [reflexivity |]. cbn in Hrc.
  cbn [heap set_heap]. rewrite lookup_alter, decide_True by reflexivity.
  rewrite Hc. cbn.
  destruct (rc + (k + 1) - 1 <=? 0) eqn:E; [apply Z.leb_le in E; lia |].
  unfold set_heap; cbn. f_equal.
  apply map_eq. intros i. rewrite lookup_insert, !lookup_alter.
  case_decide; [| reflexivity]. subst i. rewrite Hc. cbn.
  do 2 f_equal. lia.
Qed.

Lemma copies_add_refs (val : value) (n : nat) (st : JSContext) (k : Z) :
  copies n val (add_refs k (v val) st)
  = (repeat val n, add_refs (k + Z.of_nat n) (v val) st).
Proof.
  revert k. induction n as [| n IH]; intros k.
  - cbn. rewrite Z.add_0_r. reflexivity.
  - cbn [copies repeat]. unfold copy_construct.
    rewrite add_refs_dup, IH. destruct val as [c raw]; cbn.
    do 2 f_equal. lia.
Qed.

Lemma destroy_all_add_refs (val : value) (n : nat) (st : JSContext) (k : Z) :
  is_Some (ctx val) →
  js_tag (v val) ≠ JS_TAG_MODULE →
  (JS_VALUE_HAS_REF_COUNT (v val) = true →
   ∃ c, heap st !! js_ptr (v val) = Some c ∧ 1 ≤ ref_count c) →
  0 ≤ k →
  destroy_all (repeat val n) (add_refs (k + Z.of_nat n) (v val) st)
  = add_refs k (v val) st.
Proof.
  intros [c Hctx] Htag Hlive Hk.
  induction n as [| n IH].
  - cbn. rewrite Z.add_0_r. reflexivity.
  - cbn [repeat destroy_all]. unfold destroy at 1. rewrite Hctx.
    unfold JS_VALUE_GET_TAG. rewrite bool_decide_eq_true_2 by exact Htag.
    replace (k + Z.of_nat (S n)) with ((k + Z.of_nat n) + 1) by lia.
    rewrite add_refs_free by (auto; lia). exact IH.
Qed.

End HandleDiscipline.

(** C7, as amended: for a handle with a context whose value is not tagged
    as a module and, if reference counted, is live: a copy has the same
    context and value, adds one reference, and its destruction gives that
    reference back, as the destruction of the original releases the
    original's; a move or a release hands the value over, leaves the
    source without context, and the destruction of the source changes
    nothing; and after any number of copies have been made and destroyed
    the state of the engine is what it was. *)
Theorem handle_reference_discipline :
  ∀ (val : ValueHandle.value) (st : JSContext),
    is_Some (ValueHandle.ctx val) →
    js_tag (ValueHandle.v val) ≠ JS_TAG_MODULE →
    (JS_VALUE_HAS_REF_COUNT (ValueHandle.v val) = true →
     ∃ c, heap st !! js_ptr (ValueHandle.v val) = Some c ∧ 1 ≤ ref_count c) →
    (ValueHandle.copy_construct val st
       = (val, ValueHandle.add_refs 1 (ValueHandle.v val) st)
     ∧ ValueHandle.destroy val (ValueHandle.add_refs 1 (ValueHandle.v val) st) = st
     ∧ ValueHandle.destroy val st = ValueHandle.JS_FreeValue (ValueHandle.v val) st)
    ∧ (ValueHandle.move_construct val
         = (val, ValueHandle.mkValue None (ValueHandle.v val))
       ∧ ValueHandle.release val
         = (ValueHandle.v val, ValueHandle.mkValue None (ValueHandle.v val))
       ∧ ∀ st', ValueHandle.destroy
                  (ValueHandle.mkValue None (ValueHandle.v val)) st' = st')
    ∧ (∀ n : nat,
         let '(handles, st') := ValueHandle.copies n val st in
         length handles = n
         ∧ ValueHandle.destroy_all handles st' = st).
Proof.
  intros val st Hctx Htag Hlive.
  split; [split; [| split] | split; [repeat split |]].
  - unfold ValueHandle.copy_construct.
    rewrite <- (add_refs_zero (ValueHandle.v val) st) at 1.
    rewrite add_refs_dup. destruct val; reflexivity.
  - pose proof (destroy_all_add_refs val 1 st 0 Hctx Htag Hlive (Z.le_refl 0)) as H.
    change (0 + Z.of_nat 1) with 1 in H.
    cbn [repeat ValueHandle.destroy_all] in H.
    rewrite H. apply add_refs_zero.
  - unfold ValueHandle.destroy, JS_VALUE_GET_TAG. destruct Hctx as [c ->].
    rewrite bool_decide_eq_true_2 by exact Htag. reflexivity.
  - destruct val; reflexivity.
  - intros n.
    pose proof (copies_add_refs val n st 0) as Hc.
    rewrite add_refs_zero in Hc. rewrite Hc.
    split; [apply repeat_length |].
    rewrite (destroy_all_add_refs val n st 0 Hctx Htag Hlive (Z.le_refl 0)).
    apply add_refs_zero.
Qed.

Lemma handle_reference_discipline_witness :
  let val := ValueHandle.mkValue (Some 1%N) (mkJSValue JS_TAG_OBJECT 64) in
  let st := mkContext None {[ 64 := mkCell 1 (P_object 5%N None) ]} 6%N in
  let '(handles, st') := ValueHandle.copies 3 val st in
  length handles = 3%nat ∧ ValueHandle.destroy_all handles st' = st.
Proof.
  intros val st.
  refine (proj2 (proj2 (handle_reference_discipline val st _ _ _)) 3%nat).
  - eexists; reflexivity.
  - discriminate.
  - intros _. eexists; split; [reflexivity | cbn; lia].
Defined.

(** C7, as stated, fails on a value tagged as a module: the copy adds a
    reference, and neither destructor gives one back. *)
Lemma module_handle_keeps_its_reference :
  let val := ValueHandle.mkValue (Some 1%N) (mkJSValue JS_TAG_MODULE 64) in
  let st := mkContext None {[ 64 := mkCell 1 P_module ]} 6%N in
  let '(handles, st') := ValueHandle.copies 1 val st in
  ValueHandle.ref_count_of (ValueHandle.v val) st = Some 1
  ∧ ValueHandle.ref_count_of (ValueHandle.v val)
      (ValueHandle.destroy_all handles st') = Some 2.
Proof. vm_compute. split; reflexivity. Qed.

(** ** Class registration and downcasts *)

Section Casts.
Import ClassRegistry.

Lemma unwrap_derived (fuel : nat) (reg : string → statics) (T : ctype)
    (val : JSValue) (st : JSContext) (f : ptr_cast_fcn) :
  JS_IsNull val = false →
  JS_GetClassID val st ≠ qjs_class_id (reg T) →
  ptr_cast_fcn_map (reg T) !! JS_GetClassID val st = Some f →
  unwrap (S fuel) reg T val st
  = match call_ptr_cast_fcn (unwrap fuel reg) f val st with
    | Some (Returned ptr, st') => Some (check_not_null ptr st')
    | other => other
    end.
Proof.
  intros Hnull Hid Hmap. cbn [unwrap].
  rewrite Hnull, decide_False by exact Hid. rewrite Hmap.
  destruct (call_ptr_cast_fcn (unwrap fuel reg) f val st) as [[[ | | ] ?] |];
    reflexivity.
Qed.

Lemma unwrap_unknown_class (fuel : nat) (reg : registry) (T : ctype)
    (val : JSValue) (st : JSContext) :
  JS_IsNull val = false →
  JS_GetClassID val st ≠ qjs_class_id (reg T) →
  ptr_cast_fcn_map (reg T) !! JS_GetClassID val st = None →
  unwrap (S fuel) reg T val st
  = Some (Threw qjs_exception,
          set_exception
            (Some (TypeError (Msg_expected_type T (JS_GetClassID val st)))) st).
Proof.
  intros Hnull Hid Hmap. cbn [unwrap].
  rewrite Hnull, decide_False by exact Hid. rewrite Hmap. reflexivity.
Qed.



End Casts.

Section Dispatch.
Import ClassRegistry.

(** C2, as amended: unwrapping a null value as [shared_ptr<B>] returns the
    empty pointer.  For a registered class [B] and a value that is not
    null: if the class identity of the value is that of [B], the opaque
    slot is read; otherwise, if the cast table of [B] has an entry for it,
    the stored function is called; otherwise a type error naming [B] and
    the class identity is raised; and a null pointer obtained from the
    slot or from the cast function raises the internal error. *)
Theorem shared_ptr_unwrap_dispatch :
  ∀ (fuel : nat) (reg : registry) (B : ctype) (val : JSValue) (st : JSContext),
    is_registered reg B = true →
    (JS_IsNull val = true →
       unwrap (S fuel) reg B val st = Some (Returned None, st))
    ∧ (JS_IsNull val = false →
       JS_GetClassID val st = qjs_class_id (reg B) →
       ∃ opaque,
         JS_GetOpaque2 val (JS_GetClassID val st) st = (Some opaque, st)
         ∧ unwrap (S fuel) reg B val st = Some (check_not_null opaque st))
    ∧ (∀ f, JS_IsNull val = false →
       JS_GetClassID val st ≠ qjs_class_id (reg B) →
       ptr_cast_fcn_map (reg B) !! JS_GetClassID val st = Some f →
       unwrap (S fuel) reg B val st
       = match call_ptr_cast_fcn (unwrap fuel reg) f val st with
         | Some (Returned ptr, st') => Some (check_not_null ptr st')
         | other => other
         end)
    ∧ (JS_IsNull val = false →
       JS_GetClassID val st ≠ qjs_class_id (reg B) →
       ptr_cast_fcn_map (reg B) !! JS_GetClassID val st = None →
       unwrap (S fuel) reg B val st
       = Some (Threw qjs_exception,
               set_exception
                 (Some (TypeError (Msg_expected_type B (JS_GetClassID val st)))) st))
    ∧ (∀ st', check_not_null None st'
              = (Threw qjs_exception,
                 set_exception (Some (InternalError Msg_opaque_null)) st')).
Proof.
  intros fuel reg B val st Hreg.
  split; [| split; [| split; [| split]]].
  - intros Hnull. cbn [unwrap]. rewrite Hnull. reflexivity.
  - intros Hnull Hid.
    unfold is_registered in Hreg. apply negb_true_iff, N.eqb_neq in Hreg.
    rewrite <- Hid in Hreg.
    cbn [unwrap]. rewrite Hnull, decide_True by exact Hid.
    unfold JS_GetClassID in Hreg |- *. unfold JS_GetOpaque2.
    destruct (js_tag val); try congruence.
    destruct (heap st !! js_ptr val) as [[rc [ | id opaque | | ]] |];
      try congruence.
    rewrite decide_True by reflexivity. eauto.
  - intros f Hnull Hid Hmap. apply unwrap_derived; assumption.
  - intros Hnull Hid Hmap. cbn [unwrap].
    rewrite Hnull, decide_False by exact Hid. rewrite Hmap. reflexivity.
  - reflexivity.
Qed.

Lemma shared_ptr_unwrap_dispatch_witness :
  let reg := <["B" := mk_statics 7%N no_target ∅]> (λ _, initial) in
  let st := mkContext None {[ 64 := mkCell 1 (P_object 9%N None) ]} 10%N in
  unwrap 1 reg "B" (mkJSValue JS_TAG_OBJECT 64) st
  = Some (Threw qjs_exception,
          set_exception (Some (TypeError (Msg_expected_type "B" 9%N))) st).
Proof.
  intros reg st.
  apply (proj1 (proj2 (proj2 (proj2
           (shared_ptr_unwrap_dispatch 0 reg "B" (mkJSValue JS_TAG_OBJECT 64) st
              eq_refl)))));
    (reflexivity || discriminate).
Defined.

(** C2, as stated, fails on the null value: its class identity is not that
    of the registered class and the cast table has no entry for it, yet
    no type error is raised and the empty pointer is returned. *)
Lemma null_value_unwraps_to_the_empty_pointer :
  let reg := <["B" := mk_statics 7%N no_target ∅]> (λ _, initial) in
  let st := mkContext None ∅ 8%N in
  is_registered reg "B" = true
  ∧ JS_GetClassID JS_NULL st ≠ qjs_class_id (reg "B")
  ∧ ptr_cast_fcn_map (reg "B") !! JS_GetClassID JS_NULL st = None
  ∧ ∀ fuel : nat, unwrap (S fuel) reg "B" JS_NULL st = Some (Returned None, st).
Proof.
  cbv zeta. split; [reflexivity |]. split; [discriminate |].
  split; [reflexivity |]. intros fuel. reflexivity.
Qed.

End Dispatch.

(** ** Function wrapping *)

Section Wrapping.
Import FunctionWrapping.
Context {V : Type}.

Lemma to_size_t_small (argc : Z) : 0 ≤ argc < 2 ^ 31 → to_size_t argc = argc.
Proof. intros Hr. unfold to_size_t. apply Z.mod_small. lia. Qed.

(** One required parameter: the arity check, then the conversion of
    [argv[I]]. *)
Lemma unwrap_arg_impl_spec (T : unwrap_fn V) (I NArgs : nat) (argc : Z)
    (argv : argv_t) (st : JSContext) :
  0 ≤ argc < 2 ^ 31 →
  (argc ≤ Z.of_nat I →
     unwrap_arg_impl T I NArgs argc argv st
     = (Threw qjs_exception,
        set_exception (Some (TypeError (Msg_expected_at_least NArgs argc))) st))
  ∧ (Z.of_nat I < argc → unwrap_arg_impl T I NArgs argc argv st = T (argv I) st).
Proof.
  intros Hr. unfold unwrap_arg_impl. rewrite (to_size_t_small _ Hr). split.
  - intros Hle. apply Z.leb_le in Hle. rewrite Hle. reflexivity.
  - intros Hlt. apply Z.leb_gt in Hlt. rewrite Hlt. reflexivity.
Qed.

Lemma unwrap_args_impl_reads_below_argc (o : evaluation_order) (NArgs : nat)
    (argc : Z) (argv argv' : argv_t) (Ts : list (unwrap_fn V)) :
  0 ≤ argc < 2 ^ 31 →
  (∀ i, Z.of_nat i < argc → argv' i = argv i) →
  ∀ (I : nat) (st : JSContext),
    unwrap_args_impl o (map param_plain Ts) I NArgs argc argv' st
    = unwrap_args_impl o (map param_plain Ts) I NArgs argc argv st.
Proof.
  intros Hr Hagree. induction Ts as [| T Ts IH]; intros I st; [reflexivity |].
  cbn [map unwrap_args_impl unwrap_arg].
  assert (Hhead : ∀ st0, unwrap_arg_impl T I NArgs argc argv' st0
                         = unwrap_arg_impl T I NArgs argc argv st0).
  { intros st0. unfold unwrap_arg_impl. rewrite (to_size_t_small _ Hr).
    destruct (argc <=? Z.of_nat I) eqn:E; [reflexivity |].
    apply Z.leb_gt in E. rewrite (Hagree I E). reflexivity. }
  destruct o; unfold mbind, native_bind, mret, native_ret.
  - rewrite Hhead.
    destruct (unwrap_arg_impl T I NArgs argc argv st) as [[x | e | ] st1];
      try reflexivity.
    cbn. rewrite IH. reflexivity.
  - rewrite IH.
    destruct (unwrap_args_impl right_to_left _ (S I) NArgs argc argv st)
      as [[rest | e | ] st1]; try reflexivity.
    rewrite Hhead. reflexivity.
Qed.

Lemma unwrap_args_impl_enough (o : evaluation_order) (NArgs : nat) (argc : Z)
    (argv : argv_t) (Ts : list (unwrap_fn V)) :
  0 ≤ argc < 2 ^ 31 →
  ∀ (I : nat) (st : JSContext),
    Z.of_nat (I + length Ts) ≤ argc →
    unwrap_args_impl o (map param_plain Ts) I NArgs argc argv st
    = unwrap_each o Ts I argv st.
Proof.
  intros Hr. induction Ts as [| T Ts IH]; intros I st Hlen; [reflexivity |].
  cbn [map unwrap_args_impl unwrap_arg unwrap_each]. cbn [length] in Hlen.
  assert (Hhead : ∀ st0, unwrap_arg_impl T I NArgs argc argv st0 = T (argv I) st0).
  { intros st0. apply unwrap_arg_impl_spec; [exact Hr | lia]. }
  destruct o; unfold mbind, native_bind, mret, native_ret.
  - rewrite Hhead. destruct (T (argv I) st) as [[x | e | ] st1]; try reflexivity.
    cbn. rewrite IH by lia. reflexivity.
  - rewrite IH by lia.
    destruct (unwrap_each right_to_left Ts (S I) argv st) as [[rest | e | ] st1];
      try reflexivity.
    rewrite Hhead. destruct (T (argv I) st1) as [[x | e | ] st2]; reflexivity.
Qed.

(** Too few arguments for required parameters.  Evaluated from the
    right, the first conversion attempted is that of the last parameter,
    which fails the arity check.  Evaluated from the left, the supplied
    arguments are converted first, in order, and the check fails at the
    first parameter that has no argument. *)
Lemma unwrap_args_impl_too_few (o : evaluation_order) (NArgs : nat) (argc : Z)
    (argv : argv_t) (Ts : list (unwrap_fn V)) :
  0 ≤ argc < 2 ^ 31 →
  ∀ (I : nat) (st : JSContext),
    argc < Z.of_nat (I + length Ts) →
    Ts ≠ [] →
    unwrap_args_impl o (map param_plain Ts) I NArgs argc argv st
    = match o with
      | left_to_right =>
          match unwrap_each left_to_right (take (Z.to_nat argc - I) Ts) I argv st
          with
          | (Returned _, st1) =>
              (Threw qjs_exception,
               set_exception (Some (TypeError (Msg_expected_at_least NArgs argc)))
                 st1)
          | (Threw e, st1) => (Threw e, st1)
          | (Aborted, st1) => (Aborted, st1)
          end
      | right_to_left =>
          (Threw qjs_exception,
           set_exception (Some (TypeError (Msg_expected_at_least NArgs argc))) st)
      end.
Proof.
  intros Hr. induction Ts as [| T Ts IH]; intros I st Hlen Hne; [congruence |].
  cbn [map unwrap_args_impl unwrap_arg]. cbn [length] in Hlen.
  destruct (unwrap_arg_impl_spec T I NArgs argc argv st Hr) as [Hfew Hread].
  destruct o; unfold mbind, native_bind, mret, native_ret.
  - (* left to right *)
    destruct (Z_le_gt_dec argc (Z.of_nat I)) as [Hle | Hgt].
    + replace (Z.to_nat argc - I)%nat with 0%nat by lia.
      rewrite (Hfew Hle). reflexivity.
    + replace (Z.to_nat argc - I)%nat with (S (Z.to_nat argc - S I)) by lia.
      cbn [take unwrap_each]. unfold mbind, native_bind, mret, native_ret.
      rewrite Hread by lia.
      destruct (T (argv I) st) as [[x | e | ] st1]; try reflexivity.
      rewrite (IH (S I) st1) by (try lia; intros ->; cbn [length] in Hlen; lia).
      destruct (unwrap_each left_to_right _ (S I) argv st1) as [[xs | e | ] st2];
        reflexivity.
  - (* right to left *)
    destruct Ts as [| T' Ts'].
    + cbn [map unwrap_args_impl]. unfold mret, native_ret.
      rewrite Hfew by (cbn [length] in Hlen; lia). reflexivity.
    + rewrite (IH (S I) st) by (try lia; discriminate). reflexivity.
Qed.

Lemma native_bind_ext {A B : Type} (m m' : native A) (k : A → native B)
    (st : JSContext) :
  m st = m' st → (x ← m; k x) st = (x ← m'; k x) st.
Proof. intros Hm. unfold mbind, native_bind. rewrite Hm. reflexivity. Qed.

Lemma tuple_cat_ext (o : evaluation_order) (a a' b b' : native (list (argument V))) :
  (∀ s, a s = a' s) → (∀ s, b s = b' s) →
  ∀ st, tuple_cat o a b st = tuple_cat o a' b' st.
Proof.
  intros Ha Hb st. destruct o; unfold tuple_cat, mbind, native_bind.
  - rewrite Ha. destruct (a' st) as [[x | e | ] s1]; try reflexivity.
    rewrite Hb. reflexivity.
  - rewrite Hb. destruct (b' st) as [[y | e | ] s1]; try reflexivity.
    rewrite Ha. reflexivity.
Qed.

Lemma wrap_call_catches (o : evaluation_order) (PassThis : bool)
    (f : callable V) (this_val : JSValue) (argc : Z) (argv : argv_t)
    (st st' : JSContext) :
  apply_unwrapped o PassThis f this_val argc argv st = (Threw qjs_exception, st') →
  wrap_call o PassThis f this_val argc argv st = (Returned JS_EXCEPTION, st').
Proof.
  intros Hbody. unfold wrap_call.
  destruct (result_wrap f); unfold mbind, native_bind; rewrite Hbody; reflexivity.
Qed.

Lemma wrap_call_ext (o : evaluation_order) (PassThis : bool)
    (f : callable V) (this_val : JSValue) (argc : Z) (argv argv' : argv_t)
    (st : JSContext) :
  apply_unwrapped o PassThis f this_val argc argv' st
  = apply_unwrapped o PassThis f this_val argc argv st →
  wrap_call o PassThis f this_val argc argv' st
  = wrap_call o PassThis f this_val argc argv st.
Proof.
  intros Hbody. unfold wrap_call.
  destruct (result_wrap f); unfold mbind, native_bind; rewrite Hbody; reflexivity.
Qed.

(** A callable bound in one of these ways converts the receiver, if any,
    and then lets [unwrap_args_impl] bind the positional parameters. *)
Lemma apply_unwrapped_bound (o : evaluation_order) (PassThis : bool)
    (f : callable V) (receiver : option (unwrap_fn V)) (Ts : list (unwrap_fn V))
    (this_val : JSValue) (argc : Z) (argv : argv_t) (st : JSContext) :
  bound_as PassThis f receiver Ts →
  apply_unwrapped o PassThis f this_val argc argv st
  = (tuple ← match receiver with
             | None =>
                 unwrap_args_impl o (map param_plain Ts) 0 (length Ts) argc argv
             | Some R =>
                 tuple_cat o (x ← R this_val; mret [arg_single x])
                   (unwrap_args_impl o (map param_plain Ts) 0 (length Ts) argc argv)
             end;
     function f tuple) st.
Proof.
  unfold bound_as, apply_unwrapped.
  destruct (owner_type f) as [Owner |], PassThis.
  - intros [-> ->]. unfold unwrap_args. rewrite drop_0, length_map. reflexivity.
  - intros [].
  - intros (R & -> & ->). unfold unwrap_args.
    change (drop 1 (param_plain R :: map param_plain Ts))
      with (map param_plain Ts).
    rewrite length_map. apply native_bind_ext.
    apply tuple_cat_ext; [| reflexivity].
    intros s. unfold unwrap_arg.
    change (unwrap_arg_impl R 0 1 1 (addr_of this_val)) with (R this_val).
    unfold mbind, native_bind, mret, native_ret.
    destruct (R this_val s) as [[x | e | ] s1]; reflexivity.
  - intros [-> ->]. unfold unwrap_args. rewrite drop_0, length_map. reflexivity.
Qed.

(** C5, as amended: a callable whose parameters are all required, [N] of
    them after the receiver that pass-receiver binds from [this], other
    than a pointer to member function wrapped without pass-receiver.
    Invoked with [M < N] arguments, it fails with the type error naming
    [N] and [M] once the conversions evaluated before the check have
    returned: none when the arguments are evaluated from the right; the
    conversion of the receiver, if any, and those of the [M] supplied
    arguments, in this order, when they are evaluated from the left, and
    if one of these fails the call fails as that conversion does.  The
    outcome of a call never depends on the argument vector beyond the
    supplied arguments.  With [M ≥ N] arguments the receiver, if any, is
    unwrapped from [this] and parameter [i] from [argv[i]]. *)
Theorem arity_check_of_required_parameters :
  ∀ (o : evaluation_order) (PassThis : bool) (f : callable V)
    (receiver : option (unwrap_fn V)) (Ts : list (unwrap_fn V))
    (this_val : JSValue) (argc : Z) (argv : argv_t) (st : JSContext),
    bound_as PassThis f receiver Ts →
    0 ≤ argc < 2 ^ 31 →
    (argc < Z.of_nat (length Ts) →
       wrap_call right_to_left PassThis f this_val argc argv st
       = (Returned JS_EXCEPTION,
          set_exception
            (Some (TypeError (Msg_expected_at_least (length Ts) argc))) st)
       ∧ (∀ tuple st1,
            bind_required left_to_right receiver (take (Z.to_nat argc) Ts)
              this_val argv st = (Returned tuple, st1) →
            wrap_call left_to_right PassThis f this_val argc argv st
            = (Returned JS_EXCEPTION,
               set_exception
                 (Some (TypeError (Msg_expected_at_least (length Ts) argc))) st1))
       ∧ (∀ e st1,
            bind_required left_to_right receiver (take (Z.to_nat argc) Ts)
              this_val argv st = (Threw e, st1) →
            apply_unwrapped left_to_right PassThis f this_val argc argv st
            = (Threw e, st1)))
    ∧ (∀ argv' : argv_t,
         (∀ i, Z.of_nat i < argc → argv' i = argv i) →
         wrap_call o PassThis f this_val argc argv' st
         = wrap_call o PassThis f this_val argc argv st)
    ∧ (Z.of_nat (length Ts) ≤ argc →
         apply_unwrapped o PassThis f this_val argc argv st
         = (tuple ← bind_required o receiver Ts this_val argv;
            function f tuple) st).
Proof.
  intros o PassThis f receiver Ts this_val argc argv st Hbound Hr.
  split; [| split].
  - intros Hfew.
    assert (Hne : Ts ≠ []) by (intros ->; cbn [length] in Hfew; lia).
    pose proof (λ o st0, unwrap_args_impl_too_few o (length Ts) argc argv Ts Hr
                           0%nat st0 ltac:(cbn [plus]; lia) Hne) as Htoo.
    rewrite Nat.sub_0_r in Htoo.
    split; [| split].
    + apply wrap_call_catches.
      rewrite (apply_unwrapped_bound _ _ _ _ _ _ _ _ _ Hbound).
      unfold mbind, native_bind. destruct receiver as [R |].
      * unfold tuple_cat, mbind, native_bind. rewrite (Htoo right_to_left st).
        reflexivity.
      * rewrite (Htoo right_to_left st). reflexivity.
    + intros tuple st1 Hconv. apply wrap_call_catches.
      rewrite (apply_unwrapped_bound _ _ _ _ _ _ _ _ _ Hbound).
      unfold bind_required in Hconv.
      unfold mbind at 1, native_bind at 1. destruct receiver as [R |].
      * unfold tuple_cat, mbind, native_bind, mret, native_ret in Hconv |- *.
        destruct (R this_val st) as [[x | e | ] s0]; try discriminate.
        rewrite (Htoo left_to_right s0).
        destruct (unwrap_each left_to_right _ 0 argv s0) as [[xs | e | ] s1];
          try discriminate.
        injection Hconv as _ <-. reflexivity.
      * rewrite (Htoo left_to_right st), Hconv. reflexivity.
    + intros e st1 Hconv.
      rewrite (apply_unwrapped_bound _ _ _ _ _ _ _ _ _ Hbound).
      unfold bind_required in Hconv.
      unfold mbind at 1, native_bind at 1. destruct receiver as [R |].
      * unfold tuple_cat, mbind, native_bind, mret, native_ret in Hconv |- *.
        destruct (R this_val st) as [[x | e0 | ] s0]; try discriminate.
        -- rewrite (Htoo left_to_right s0).
           destruct (unwrap_each left_to_right _ 0 argv s0) as [[xs | e1 | ] s1];
             try discriminate.
           injection Hconv as <- <-. reflexivity.
        -- injection Hconv as <- <-. reflexivity.
      * rewrite (Htoo left_to_right st), Hconv. reflexivity.
  - intros argv' Hagree. apply wrap_call_ext.
    rewrite !(apply_unwrapped_bound _ _ _ _ _ _ _ _ _ Hbound).
    pose proof (λ s, unwrap_args_impl_reads_below_argc o (length Ts) argc argv
                       argv' Ts Hr Hagree 0%nat s) as Hread.
    apply native_bind_ext. destruct receiver as [R |].
    + apply tuple_cat_ext; [reflexivity | exact Hread].
    + exact (Hread st).
  - intros Henough.
    rewrite (apply_unwrapped_bound _ _ _ _ _ _ _ _ _ Hbound).
    pose proof (λ s, unwrap_args_impl_enough o (length Ts) argc argv Ts Hr
                       0%nat s ltac:(cbn [plus]; lia)) as Hall.
    apply native_bind_ext. unfold bind_required. destruct receiver as [R |].
    + apply tuple_cat_ext; [reflexivity | exact Hall].
    + exact (Hall st).
Qed.

Lemma push_back_loop_in_order (T : unwrap_fn V) (argv : argv_t) (k I : nat)
    (st : JSContext) :
  push_back_loop T argv I k st = unwrap_in_order T (map argv (seq I k)) st.
Proof.
  revert I st. induction k as [| k IH]; intros I st; [reflexivity |].
  cbn [push_back_loop seq map unwrap_in_order]. unfold mbind, native_bind.
  destruct (T (argv I) st) as [[x | e | ] st1]; try reflexivity.
  rewrite IH. reflexivity.
Qed.

Lemma unwrap_in_order_length (T : unwrap_fn V) (vals : list JSValue) :
  ∀ st xs st', unwrap_in_order T vals st = (Returned xs, st') →
               length xs = length vals.
Proof.
  induction vals as [| val vals IH]; intros st xs st'.
  - cbn. intros [= <- _]. reflexivity.
  - cbn [unwrap_in_order]. unfold mbind, native_bind, mret, native_ret.
    destruct (T val st) as [[x | e | ] st1]; try discriminate.
    destruct (unwrap_in_order T vals st1) as [[ys | e | ] st2] eqn:E;
      try discriminate.
    intros [= <- _]. cbn [length]. f_equal. exact (IH _ _ _ E).
Qed.

Lemma unwrap_args_impl_compiles_rest_last (ps : list (param V)) :
  ∀ (I NArgs : nat),
    unwrap_args_impl_compiles ps I NArgs = true →
    ∀ j T, ps !! j = Some (param_rest T) → (I + j)%nat = (NArgs - 1)%nat.
Proof.
  induction ps as [| p ps IH]; intros I NArgs Hc j T Hj; [discriminate |].
  cbn [unwrap_args_impl_compiles] in Hc. apply andb_true_iff in Hc as [Hp Hps].
  destruct j as [| j].
  - cbn in Hj. injection Hj as ->. cbn in Hp. apply Nat.eqb_eq in Hp. lia.
  - cbn in Hj. specialize (IH (S I) NArgs Hps j T Hj). lia.
Qed.

(** C6: a rest parameter bound from the argument vector at position [I]
    captures the [k] arguments from [I] on, converted in call order, and
    the static assertion lets it stand only in the last position; but in
    pass-receiver mode the first parameter of a callable is bound through
    the same template with [I = 0] and [NArgs = 1], so that a rest
    parameter followed by another parameter is accepted and captures the
    receiver. *)
Theorem rest_parameter_capture :
  (∀ (T : unwrap_fn V) (I NArgs k : nat) (argv : argv_t) (st : JSContext),
      Z.of_nat (I + k) < 2 ^ 31 →
      unwrap_arg_impl_rest T I NArgs (Z.of_nat (I + k)) argv st
      = unwrap_in_order T (map argv (seq I k)) st
      ∧ ∀ xs st', unwrap_in_order T (map argv (seq I k)) st = (Returned xs, st') →
                  length xs = k)
  ∧ (∀ (Tuple : list (param V)) (Offset i : nat) (T : unwrap_fn V),
      unwrap_args_compiles Tuple Offset = true →
      (Offset ≤ i)%nat → Tuple !! i = Some (param_rest T) →
      i = (length Tuple - 1)%nat)
  ∧ (∀ (T U : unwrap_fn V) function result_wrap,
      compiles true (mk_callable None [param_rest T; param_plain U]
                       function result_wrap) = true)
  ∧ (∀ (T : unwrap_fn V) (this_val : JSValue) (st : JSContext),
      unwrap_arg (param_rest T) 0 1 1 (addr_of this_val) st
      = (x ← T this_val; mret (arg_rest [x])) st).
Proof.
  split; [| split; [| split]].
  - intros T I NArgs k argv st Hr. split.
    + unfold unwrap_arg_impl_rest, vector_reserve, to_size_t, PTRDIFF_MAX.
      rewrite !Z.mod_small by lia.
      replace (Z.of_nat (I + k) - Z.of_nat I) with (Z.of_nat k) by lia.
      destruct (2 ^ 63 - 1 <? Z.of_nat k) eqn:E; [apply Z.ltb_lt in E; lia |].
      rewrite Nat2Z.id. unfold mbind, native_bind, mret, native_ret.
      apply push_back_loop_in_order.
    + intros xs st' Hx. rewrite (unwrap_in_order_length _ _ _ _ _ Hx).
      rewrite length_map. apply length_seq.
  - intros Tuple Offset i T Hc Hle Hi.
    unfold unwrap_args_compiles in Hc.
    assert (Hd : drop Offset Tuple !! (i - Offset)%nat = Some (param_rest T)).
    { rewrite lookup_drop. replace (Offset + (i - Offset))%nat with i by lia.
      exact Hi. }
    pose proof (unwrap_args_impl_compiles_rest_last _ _ _ Hc _ _ Hd) as Hlast.
    rewrite length_drop in Hlast.
    apply lookup_lt_Some in Hi. lia.
  - reflexivity.
  - intros T this_val st.
    unfold unwrap_arg, unwrap_arg_impl_rest, vector_reserve, addr_of.
    change (PTRDIFF_MAX <? to_size_t (1 - Z.of_nat 0)) with false.
    change (Z.to_nat (to_size_t 1 - Z.of_nat 0)) with 1%nat.
    cbn [push_back_loop]. unfold mbind, native_bind, mret, native_ret.
    destruct (T this_val st) as [[x | e | ] st1]; reflexivity.
Qed.

End Wrapping.

Section WrappingExamples.
Import FunctionWrapping.

Lemma arity_check_of_required_parameters_witness :
  let T : unwrap_fn Z := λ val, mret (js_ptr val) in
  let f :=
    mk_callable None [param_plain T; param_plain T; param_plain T]
      (λ _, mret 0) None in
  wrap_call left_to_right true f (mkJSValue JS_TAG_INT 7) 1
    (λ _, mkJSValue JS_TAG_INT 5) SmallEngine.empty_context
  = (Returned JS_EXCEPTION,
     set_exception (Some (TypeError (Msg_expected_at_least 2 1)))
       SmallEngine.empty_context).
Proof.
  intros T f.
  refine (proj1 (proj2 (proj1 (arity_check_of_required_parameters left_to_right
                                 true f (Some T) [T; T] (mkJSValue JS_TAG_INT 7) 1
                                 (λ _, mkJSValue JS_TAG_INT 5)
                                 SmallEngine.empty_context _ _) _))
            [arg_single 7; arg_single 5] SmallEngine.empty_context _).
  - exists T. split; reflexivity.
  - lia.
  - cbn. lia.
  - reflexivity.
Defined.

(** C5, as stated, fails.  A callable declared with a text parameter and
    a rest parameter has one required parameter; invoked without
    arguments, the type error names 2 and 0 when the arguments are
    evaluated from the left, and the call ends in an internal error when
    they are evaluated from the right.  A callable with two required
    8-bit parameters invoked with the single argument 1000 ends, from the
    left, in the range error of the first conversion.  And a pointer to
    member function with two required parameters, wrapped without
    pass-receiver, raises no arity error when it is invoked without
    arguments, its object and its parameters being read beyond the
    argument vector, and names 2 and 0 when it is invoked with one. *)
Lemma arity_check_counterexamples :
  let text : unwrap_fn Z := λ val, mret (js_ptr val) in
  let int8 : unwrap_fn Z :=
    @IntegerTraits.unwrap SmallEngine.engine (mkInt W8 true) in
  let f := mk_callable None [param_plain text; param_rest text] (λ _, mret 0) None in
  let g := mk_callable None [param_plain int8; param_plain int8] (λ _, mret 0) None in
  let m :=
    mk_callable (Some text) [param_plain text; param_plain text]
      (λ tuple,
         match tuple with
         | [arg_single this; arg_single x; arg_single y] =>
             mret (100 * this + 10 * x + y)
         | _ => mret (-1)
         end)
      (Some (λ r, mret (mkJSValue JS_TAG_INT r))) in
  let st := SmallEngine.empty_context in
  wrap_call left_to_right false f JS_UNDEFINED 0 (λ _, JS_UNDEFINED) st
  = (Returned JS_EXCEPTION,
     set_exception (Some (TypeError (Msg_expected_at_least 2 0))) st)
  ∧ wrap_call right_to_left false f JS_UNDEFINED 0 (λ _, JS_UNDEFINED) st
    = (Returned JS_EXCEPTION,
       set_exception (Some (InternalError (Msg_what "vector::reserve"))) st)
  ∧ wrap_call left_to_right false g JS_UNDEFINED 1 (λ _, mkJSValue JS_TAG_INT 1000) st
    = (Returned JS_EXCEPTION,
       set_exception
         (Some (RangeError (Msg_could_not_unwrap_integer (mkInt W8 true)))) st)
  ∧ wrap_call left_to_right false m JS_UNDEFINED 0
      (λ i, mkJSValue JS_TAG_INT (1 + Z.of_nat i)) st
    = (Returned (mkJSValue JS_TAG_INT 123), st)
  ∧ wrap_call left_to_right false m JS_UNDEFINED 1
      (λ i, mkJSValue JS_TAG_INT (1 + Z.of_nat i)) st
    = (Returned JS_EXCEPTION,
       set_exception (Some (TypeError (Msg_expected_at_least 2 0))) st).
Proof. cbv zeta. repeat split; vm_compute; reflexivity. Qed.

End WrappingExamples.

(** * Further properties *)

(** ** Integral conversions *)

Lemma in_range_bounds (T : int_type) (x : Z) :
  in_range T x = true ↔ int_min T ≤ x ≤ int_max T.
Proof.
  unfold in_range. rewrite andb_true_iff, !Z.leb_le. reflexivity.
Qed.

(** Replace the limits of a concrete integral type by their numerals. *)
Ltac concrete_limits :=
  repeat match goal with
    | H : context [int_max (mkInt ?w ?s)] |- _ =>
        let v := eval vm_compute in (int_max (mkInt w s)) in
        change (int_max (mkInt w s)) with v in H
    | H : context [int_min (mkInt ?w ?s)] |- _ =>
        let v := eval vm_compute in (int_min (mkInt w s)) in
        change (int_min (mkInt w s)) with v in H
    | |- context [int_max (mkInt ?w ?s)] =>
        let v := eval vm_compute in (int_max (mkInt w s)) in
        change (int_max (mkInt w s)) with v
    | |- context [int_min (mkInt ?w ?s)] =>
        let v := eval vm_compute in (int_min (mkInt w s)) in
        change (int_min (mkInt w s)) with v
    end.

(** X1: a value returned by [js_traits<Integer>::unwrap] is the number the
    engine's conversion primitive reported with status 0, unchanged, and
    it lies in the range of [T]: nothing is ever narrowed. *)
Theorem integer_unwrap_returns_the_engine_number `{Engine} :
  ∀ (T : int_type) (val : JSValue) (st st' : JSContext) (x : Z),
    IntegerTraits.unwrap T val st = (Returned x, st') →
    in_range T x = true
    ∧ IntegerTraits.to_primitive (IntegerTraits.select T) val st = ((0, x), st').
Proof.
  intros T val st st' x.
  unfold IntegerTraits.unwrap, IntegerTraits.unwrap_integer.
  unfold mbind, native_bind, call, mret, native_ret.
  destruct (IntegerTraits.to_primitive _ val st) as [[status result] st1].
  destruct (status =? 0) eqn:Es; cbn; [| discriminate].
  destruct (in_range T result) eqn:Er; cbn; [| discriminate].
  intros [= <- <-]. apply Z.eqb_eq in Es. subst status.
  rewrite (static_cast_in_range _ _ Er). split; [exact Er | reflexivity].
Qed.

Lemma integer_unwrap_returns_the_engine_number_witness :
  in_range (mkInt W16 false) 65535 = true
  ∧ @IntegerTraits.to_primitive SmallEngine.engine
      (IntegerTraits.select (mkInt W16 false)) (mkJSValue JS_TAG_INT 65535)
      SmallEngine.empty_context
    = ((0, 65535), SmallEngine.empty_context).
Proof.
  apply (@integer_unwrap_returns_the_engine_number SmallEngine.engine
           (mkInt W16 false) (mkJSValue JS_TAG_INT 65535)
           SmallEngine.empty_context SmallEngine.empty_context 65535).
  reflexivity.
Defined.

(** X2: wrapping a value of [T] fails only for a 64-bit unsigned value
    above [INT64_MAX], with the range error naming [int64_t]; every other
    value of every integral type reaches the engine's constructor
    primitive unchanged. *)
Theorem integer_wrap_fails_only_above_int64 `{Engine} :
  ∀ (T : int_type) (x : Z) (st : JSContext),
    in_range T x = true →
    IntegerTraits.wrap T x st
    = if (INT64_MAX <? x)
      then (Threw qjs_exception,
            set_exception (Some (RangeError (Msg_could_not_wrap_integer int64_t))) st)
      else (Returned (IntegerTraits.new_primitive (IntegerTraits.select T) x), st).
Proof.
  intros T x st HT.
  unfold IntegerTraits.wrap, IntegerTraits.wrap_integer.
  apply in_range_bounds in HT.
  destruct (INT64_MAX <? x) eqn:Ebig.
  - apply Z.ltb_lt in Ebig. unfold INT64_MAX in Ebig.
    destruct T as [[] []]; concrete_limits; try lia.
    (* uint64 *)
    assert (Hout : in_range (IntegerTraits.widened_type
                               (IntegerTraits.select (mkInt W64 false))) x = false).
    { apply not_true_iff_false. rewrite in_range_bounds.
      change (IntegerTraits.widened_type _) with int64_t.
      unfold int64_t. concrete_limits. lia. }
    rewrite Hout. reflexivity.
  - apply Z.ltb_ge in Ebig. unfold INT64_MAX in Ebig.
    assert (Hin : in_range (IntegerTraits.widened_type (IntegerTraits.select T)) x
                  = true).
    { apply in_range_bounds.
      destruct T as [[] []];
        match goal with
        | |- context [IntegerTraits.widened_type ?w] =>
            let v := eval vm_compute in (IntegerTraits.widened_type w) in
            change (IntegerTraits.widened_type w) with v
        end; concrete_limits; lia. }
    rewrite Hin, (static_cast_in_range _ _ Hin). reflexivity.
Qed.

Lemma integer_wrap_fails_only_above_int64_witness :
  @IntegerTraits.wrap SmallEngine.engine uint64_t 9223372036854775808
    SmallEngine.empty_context
  = (Threw qjs_exception,
     set_exception (Some (RangeError (Msg_could_not_wrap_integer int64_t)))
       SmallEngine.empty_context).
Proof.
  apply (@integer_wrap_fails_only_above_int64 SmallEngine.engine uint64_t
           9223372036854775808 SmallEngine.empty_context).
  reflexivity.
Defined.

(** ** Integer property keys *)

(** X3: a key of type [K] reaches the engine's accessors, in [get] and
    in [set], with its own value, except a 64-bit unsigned key above
    [INT64_MAX], which the signed accessors receive as the negative
    number [idx - 2^64]. *)
Theorem integer_key_reaches_the_engine `{Engine} :
  ∀ (K : int_type) (this_obj val : JSValue) (idx : Z) (st : JSContext),
    in_range K idx = true →
    let key := if INT64_MAX <? idx then idx - 2 ^ 64 else idx in
    PropertyTraits.get K this_obj idx st
    = (if PropertyTraits.routes_int64 K
       then call (JS_GetPropertyInt64 this_obj key) st
       else call (JS_GetPropertyUint32 this_obj key) st)
    ∧ PropertyTraits.set K this_obj idx val st
      = (if PropertyTraits.routes_int64 K
         then (status ← call (JS_SetPropertyInt64 this_obj key val);
               if status <? 0 then throw qjs_exception else mret tt) st
         else (status ← call (JS_SetPropertyUint32 this_obj key val);
               if status <? 0 then throw qjs_exception else mret tt) st).
Proof.
  intros K this_obj val idx st HK key.
  assert (Hcast : (if PropertyTraits.routes_int64 K
                   then static_cast int64_t idx
                   else static_cast uint32_t idx) = key).
  { subst key. apply in_range_bounds in HK.
    destruct (INT64_MAX <? idx) eqn:Ebig.
    - apply Z.ltb_lt in Ebig. unfold INT64_MAX in Ebig.
      destruct K as [[] []]; concrete_limits; try lia.
      change (PropertyTraits.routes_int64 (mkInt W64 false)) with true.
      cbn iota. unfold static_cast, int64_t; cbn [is_signed].
      change (bits (mkInt W64 true)) with 64.
      replace (idx + 2 ^ (64 - 1)) with ((idx - 2 ^ 63) + 1 * 2 ^ 64) by lia.
      rewrite Z.mod_add by lia. rewrite Z.mod_small by lia. lia.
    - apply Z.ltb_ge in Ebig. unfold INT64_MAX in Ebig.
      destruct (PropertyTraits.routes_int64 K) eqn:Er.
      + apply static_cast_in_range, in_range_bounds. unfold int64_t.
        destruct K as [[] []]; concrete_limits; lia.
      + apply static_cast_in_range, in_range_bounds. unfold uint32_t.
        destruct K as [[] []]; try discriminate Er; concrete_limits; lia. }
  unfold PropertyTraits.get, PropertyTraits.set.
  destruct (PropertyTraits.routes_int64 K); rewrite Hcast; split; reflexivity.
Qed.

Lemma integer_key_reaches_the_engine_witness :
  @PropertyTraits.get SmallEngine.engine uint64_t JS_NULL 18446744073709551615
    SmallEngine.empty_context
  = call (@JS_GetPropertyInt64 SmallEngine.engine JS_NULL (-1))
      SmallEngine.empty_context.
Proof.
  apply (@integer_key_reaches_the_engine SmallEngine.engine uint64_t JS_NULL
           JS_NULL 18446744073709551615 SmallEngine.empty_context).
  reflexivity.
Defined.

(** ** Optional values, wrapped and unwrapped *)

(** X4: the empty optional wraps to [JS_NULL] and unwraps to the empty
    optional without consulting [T]; a present value comes back present
    when [T] wraps it to a value that is not null and unwraps that value
    to it; and a present value that [T] wraps to null comes back as the
    empty optional. *)
Theorem optional_round_trip {V : Type} (T : js_traits V) :
  ∀ (st : JSContext),
    (v ← OptionalTraits.wrap T None; OptionalTraits.unwrap T v) st
    = (Returned None, st)
    ∧ (∀ (x : V) (v : JSValue) (st1 st2 : JSContext),
         Trait.wrap T x st = (Returned v, st1) →
         JS_IsNull v = false →
         Trait.unwrap T v st1 = (Returned x, st2) →
         (v ← OptionalTraits.wrap T (Some x); OptionalTraits.unwrap T v) st
         = (Returned (Some x), st2))
    ∧ (∀ (x : V) (v : JSValue) (st1 : JSContext),
         Trait.wrap T x st = (Returned v, st1) →
         JS_IsNull v = true →
         (v ← OptionalTraits.wrap T (Some x); OptionalTraits.unwrap T v) st
         = (Returned None, st1)).
Proof.
  intros st.
  unfold OptionalTraits.wrap, OptionalTraits.unwrap, noexcept,
    try_catch_exception, mbind, native_bind, mret, native_ret.
  split; [reflexivity |]. split.
  - intros x v st1 st2 Hwrap Hnull Hunwrap.
    rewrite Hwrap, Hnull, Hunwrap. reflexivity.
  - intros x v st1 Hwrap Hnull. rewrite Hwrap, Hnull. reflexivity.
Qed.

Lemma optional_round_trip_witness :
  (v ← OptionalTraits.wrap SmallEngine.int8_traits (Some 7);
   OptionalTraits.unwrap SmallEngine.int8_traits v) SmallEngine.empty_context
  = (Returned (Some 7), SmallEngine.empty_context).
Proof.
  apply (proj1 (proj2 (optional_round_trip SmallEngine.int8_traits
                         SmallEngine.empty_context))
           7 (mkJSValue JS_TAG_INT 7) SmallEngine.empty_context
           SmallEngine.empty_context);
    reflexivity.
Defined.

Lemma integer_wrap_throws_above_int64 `{Engine} (x : Z) (st : JSContext) :
  in_range uint64_t x = true → INT64_MAX < x →
  IntegerTraits.wrap uint64_t x st
  = (Threw qjs_exception,
     set_exception (Some (RangeError (Msg_could_not_wrap_integer int64_t))) st).
Proof.
  intros Hx Hbig. unfold INT64_MAX in Hbig.
  unfold IntegerTraits.wrap, IntegerTraits.wrap_integer.
  assert (Hout : in_range (IntegerTraits.widened_type
                             (IntegerTraits.select uint64_t)) x = false).
  { apply not_true_iff_false. rewrite in_range_bounds.
    change (IntegerTraits.widened_type _) with int64_t.
    unfold int64_t. concrete_limits. lia. }
  rewrite Hout. reflexivity.
Qed.

(** X5: [js_traits<std::optional<T>>] is declared [noexcept] on both
    sides, so a failure it does not handle ends the program: [wrap] of a
    present value whose [T] wrap throws, and [unwrap] of a value that is
    not null whose [T] unwrap throws anything but the bridge's exception.
    In particular, wrapping a present [std::optional<uint64_t>] above
    [INT64_MAX] terminates the program with the range error pending. *)
Theorem optional_terminates_on_unhandled_failures `{Engine} :
  (∀ (V : Type) (T : js_traits V) (x : V) (e : thrown) (st st' : JSContext),
     Trait.wrap T x st = (Threw e, st') →
     OptionalTraits.wrap T (Some x) st = (Aborted, st'))
  ∧ (∀ (V : Type) (T : js_traits V) (val : JSValue) (e : thrown)
       (st st' : JSContext),
       JS_IsNull val = false → e ≠ qjs_exception →
       Trait.unwrap T val st = (Threw e, st') →
       OptionalTraits.unwrap T val st = (Aborted, st'))
  ∧ (∀ (x : Z) (st : JSContext),
       in_range uint64_t x = true → INT64_MAX < x →
       OptionalTraits.wrap (integer_traits uint64_t) (Some x) st
       = (Aborted,
          set_exception
            (Some (RangeError (Msg_could_not_wrap_integer int64_t))) st)).
Proof.
  split; [| split].
  - intros V T x e st st' Hwrap.
    unfold OptionalTraits.wrap, noexcept. rewrite Hwrap. reflexivity.
  - intros V T val e st st' Hnull He Hunwrap.
    unfold OptionalTraits.unwrap, noexcept, try_catch_exception,
      mbind, native_bind.
    rewrite Hnull, Hunwrap. destruct e; [congruence | reflexivity | reflexivity].
  - intros x st Hx Hbig.
    unfold OptionalTraits.wrap, noexcept, integer_traits. cbn [Trait.wrap].
    rewrite (integer_wrap_throws_above_int64 x st Hx Hbig). reflexivity.
Qed.

(** ** Function wrapping, continued *)

Section WrappingMore.
Import FunctionWrapping FunctionBinding.
Context {V : Type}.

(** Unfold the binds of [native] at the head of a goal. *)
Ltac run_native := unfold mbind, native_bind, mret, native_ret; cbn beta iota.

(** X6: [wrap_call] is an exception barrier: whatever the callable, the
    conversions and the wrap of the result do, no exception leaves it;
    a native failure is answered by [JS_EXCEPTION], and one that is not
    the bridge's own exception is recorded as an internal error. *)
Theorem wrap_call_lets_no_exception_out :
  ∀ (o : evaluation_order) (PassThis : bool) (f : callable V)
    (this_val : JSValue) (argc : Z) (argv : argv_t) (st : JSContext),
    (∀ e st', wrap_call o PassThis f this_val argc argv st ≠ (Threw e, st'))
    ∧ (∀ e st1,
         (r ← apply_unwrapped o PassThis f this_val argc argv;
          match result_wrap f with
          | Some wrap_R => wrap_R r
          | None => mret JS_NULL
          end) st = (Threw e, st1) →
         ∃ st',
           wrap_call o PassThis f this_val argc argv st = (Returned JS_EXCEPTION, st')
           ∧ match e with
             | qjs_exception => st' = st1
             | std_exception what =>
                 current_exception st' = Some (InternalError (Msg_what what))
             | unknown_exception =>
                 current_exception st' = Some (InternalError Msg_unknown_error)
             end).
Proof.
  intros o PassThis f this_val argc argv st. unfold wrap_call. split.
  - intros e st'.
    destruct (result_wrap f) as [wrap_R |];
      match goal with
      | |- context [let (_, _) := ?m st in _] =>
          destruct (m st) as [[v | [ | what | ] | ] st1]
      end; discriminate.
  - intros e st1.
    destruct (result_wrap f) as [wrap_R |]; run_native;
      destruct (apply_unwrapped o PassThis f this_val argc argv st)
        as [[r | e0 | ] st2]; try discriminate.
    + destruct (wrap_R r st2) as [[v | e1 | ] st3]; try discriminate.
      intros [= <- <-]. destruct e1; eexists; split; reflexivity.
    + intros [= <- <-]. destruct e0; eexists; split; reflexivity.
    + intros [= <- <-]. destruct e0; eexists; split; reflexivity.
Qed.

Lemma unwrap_arg_impl_rest_in_order (T : unwrap_fn V) (I NArgs : nat)
    (argc : Z) (argv : argv_t) (st : JSContext) :
  Z.of_nat I ≤ argc < 2 ^ 31 →
  unwrap_arg_impl_rest T I NArgs argc argv st
  = unwrap_in_order T (map argv (seq I (Z.to_nat argc - I))) st.
Proof.
  intros Hr.
  unfold unwrap_arg_impl_rest, vector_reserve, to_size_t, PTRDIFF_MAX.
  rewrite !Z.mod_small by lia.
  destruct (2 ^ 63 - 1 <? argc - Z.of_nat I) eqn:E; [apply Z.ltb_lt in E; lia |].
  run_native.
  replace (Z.to_nat (argc - Z.of_nat I)) with (Z.to_nat argc - I)%nat by lia.
  apply push_back_loop_in_order.
Qed.

Lemma unwrap_args_impl_with_rest (o : evaluation_order) (R : unwrap_fn V)
    (NArgs : nat) (argc : Z) (argv : argv_t) (Ts : list (unwrap_fn V)) :
  0 ≤ argc < 2 ^ 31 →
  ∀ (I : nat) (st : JSContext),
    Z.of_nat (I + length Ts) ≤ argc →
    unwrap_args_impl o (map param_plain Ts ++ [param_rest R]) I NArgs argc argv st
    = match o with
      | left_to_right =>
          (fixed ← unwrap_each o Ts I argv;
           xs ← unwrap_in_order R
                  (map argv (seq (I + length Ts) (Z.to_nat argc - (I + length Ts))));
           mret (fixed ++ [arg_rest xs])) st
      | right_to_left =>
          (xs ← unwrap_in_order R
                  (map argv (seq (I + length Ts) (Z.to_nat argc - (I + length Ts))));
           fixed ← unwrap_each o Ts I argv;
           mret (fixed ++ [arg_rest xs])) st
      end.
Proof.
  intros Hr. induction Ts as [| T Ts IH]; intros I st Hlen.
  - cbn [map app unwrap_args_impl unwrap_arg unwrap_each length].
    rewrite Nat.add_0_r. cbn [length] in Hlen. rewrite Nat.add_0_r in Hlen.
    destruct o; run_native;
      rewrite (unwrap_arg_impl_rest_in_order R I NArgs argc argv st) by lia;
      destruct (unwrap_in_order R _ st) as [[xs | e | ] st1]; reflexivity.
  - cbn [map app unwrap_args_impl unwrap_arg unwrap_each]. cbn [length] in Hlen.
    assert (Hhead : ∀ st0, unwrap_arg_impl T I NArgs argc argv st0 = T (argv I) st0).
    { intros st0. apply unwrap_arg_impl_spec; [exact Hr | lia]. }
    replace (I + length (T :: Ts))%nat with (S I + length Ts)%nat
      by (cbn [length]; lia).
    destruct o; run_native.
    + rewrite Hhead. destruct (T (argv I) st) as [[x | e | ] st1]; try reflexivity.
      rewrite (IH (S I) st1) by lia. run_native.
      destruct (unwrap_each left_to_right Ts (S I) argv st1)
        as [[fixed | e | ] st2]; try reflexivity.
      destruct (unwrap_in_order R _ st2) as [[xs | e | ] st3]; reflexivity.
    + rewrite (IH (S I) st) by lia. run_native.
      destruct (unwrap_in_order R _ st) as [[xs | e | ] st1]; try reflexivity.
      destruct (unwrap_each right_to_left Ts (S I) argv st1)
        as [[fixed | e | ] st2]; try reflexivity.
      rewrite Hhead. destruct (T (argv I) st2) as [[x | e | ] st3]; reflexivity.
Qed.

(** X7: for a parameter list of required parameters followed by a rest
    parameter, invoked with at least as many arguments as there are
    required parameters, [unwrap_args] binds each required parameter to
    the argument of its position and the rest parameter to all the
    arguments after them, in call order, under either order of
    evaluation. *)
Theorem unwrap_args_binds_trailing_rest :
  ∀ (o : evaluation_order) (Ts : list (unwrap_fn V)) (R : unwrap_fn V)
    (argc : Z) (argv : argv_t) (st : JSContext),
    Z.of_nat (length Ts) ≤ argc < 2 ^ 31 →
    unwrap_args o (map param_plain Ts ++ [param_rest R]) 0 argc argv st
    = bind_with_rest o Ts R argc argv st.
Proof.
  intros o Ts R argc argv st Hr.
  unfold unwrap_args, bind_with_rest. rewrite drop_0.
  rewrite (unwrap_args_impl_with_rest o R _ argc argv Ts) by (cbn [plus]; lia).
  cbn [plus]. destruct o; reflexivity.
Qed.

Lemma unwrap_args_impl_compiles_of_rest_last (ps : list (param V)) :
  ∀ (I NArgs : nat),
    (∀ j T, ps !! j = Some (param_rest T) → (I + j)%nat = (NArgs - 1)%nat) →
    unwrap_args_impl_compiles ps I NArgs = true.
Proof.
  induction ps as [| p ps IH]; intros I NArgs Hlast; [reflexivity |].
  cbn [unwrap_args_impl_compiles]. apply andb_true_iff. split.
  - destruct p as [T | T]; [reflexivity |]. cbn.
    apply Nat.eqb_eq. specialize (Hlast 0%nat T eq_refl). lia.
  - apply IH. intros j T Hj. specialize (Hlast (S j) T Hj). lia.
Qed.

(** X8: the static assertions met by [unwrap_args<Tuple, Offset>] hold
    exactly when every rest parameter at or after [Offset] is the last
    element of the tuple. *)
Theorem unwrap_args_compiles_iff_rest_last :
  ∀ (Tuple : list (param V)) (Offset : nat),
    unwrap_args_compiles Tuple Offset = true
    ↔ (∀ i T, (Offset ≤ i)%nat → Tuple !! i = Some (param_rest T) →
              i = (length Tuple - 1)%nat).
Proof.
  intros Tuple Offset. unfold unwrap_args_compiles. split.
  - intros Hc i T Hle Hi.
    assert (Hd : drop Offset Tuple !! (i - Offset)%nat = Some (param_rest T)).
    { rewrite lookup_drop. replace (Offset + (i - Offset))%nat with i by lia.
      exact Hi. }
    pose proof (unwrap_args_impl_compiles_rest_last _ _ _ Hc _ _ Hd) as Hlast.
    rewrite length_drop in Hlast. apply lookup_lt_Some in Hi. lia.
  - intros Hlast. apply unwrap_args_impl_compiles_of_rest_last.
    intros j T Hj. rewrite lookup_drop in Hj.
    pose proof (Hlast (Offset + j)%nat T ltac:(lia) Hj) as Hi.
    rewrite length_drop. apply lookup_lt_Some in Hj. lia.
Qed.

Lemma unwrap_args_impl_unchecked (o : evaluation_order) (NArgs : nat) (argc : Z)
    (argv : argv_t) (Ts : list (unwrap_fn V)) :
  ∀ (I : nat) (st : JSContext),
    Z.of_nat (I + length Ts) ≤ to_size_t argc →
    unwrap_args_impl o (map param_plain Ts) I NArgs argc argv st
    = unwrap_each o Ts I argv st.
Proof.
  induction Ts as [| T Ts IH]; intros I st Hlen; [reflexivity |].
  cbn [map unwrap_args_impl unwrap_arg unwrap_each]. cbn [length] in Hlen.
  assert (Hhead : ∀ st0, unwrap_arg_impl T I NArgs argc argv st0 = T (argv I) st0).
  { intros st0. unfold unwrap_arg_impl.
    destruct (to_size_t argc <=? Z.of_nat I) eqn:E; [| reflexivity].
    apply Z.leb_le in E. lia. }
  destruct o; run_native.
  - rewrite Hhead. destruct (T (argv I) st) as [[x | e | ] st1]; try reflexivity.
    rewrite IH by lia. reflexivity.
  - rewrite IH by lia.
    destruct (unwrap_each right_to_left Ts (S I) argv st) as [[rest | e | ] st1];
      try reflexivity.
    rewrite Hhead. destruct (T (argv I) st1) as [[x | e | ] st2]; reflexivity.
Qed.

(** X9: a pointer to member function wrapped without pass-receiver and
    invoked without any argument raises no arity error: the owner is
    unwrapped from [argv[0]] and parameter [i] from [argv[i + 1]], beyond
    the arguments the call supplied. *)
Theorem member_pointer_call_without_arguments :
  ∀ (o : evaluation_order) (f : callable V) (Owner : unwrap_fn V)
    (Ts : list (unwrap_fn V)) (this_val : JSValue) (argv : argv_t)
    (st : JSContext),
    owner_type f = Some Owner →
    args f = map param_plain Ts →
    Z.of_nat (length Ts) < 2 ^ 31 →
    apply_unwrapped o false f this_val 0 argv st
    = (tuple ← tuple_cat o
                 (x ← Owner (argv 0%nat); mret [arg_single x])
                 (unwrap_each o Ts 0 (λ i, argv (S i)));
       function f tuple) st.
Proof.
  intros o f Owner Ts this_val argv st Hown Hargs Hlen.
  unfold apply_unwrapped. rewrite Hown, Hargs.
  unfold unwrap_args. rewrite drop_0.
  assert (Hparams : ∀ st0,
            unwrap_args_impl o (map param_plain Ts) 0
              (length (map param_plain Ts)) (0 - 1) (λ i, argv (S i)) st0
            = unwrap_each o Ts 0 (λ i, argv (S i)) st0).
  { intros st0. apply unwrap_args_impl_unchecked.
    change (to_size_t (0 - 1)) with 18446744073709551615. cbn [plus]. lia. }
  assert (Howner : ∀ st0, unwrap_arg_impl Owner 0 1 1 argv st0 = Owner (argv 0%nat) st0)
    by reflexivity.
  unfold tuple_cat. destruct o; run_native.
  - rewrite Howner.
    destruct (Owner (argv 0%nat) st) as [[x | e | ] st1]; try reflexivity.
    rewrite Hparams. reflexivity.
  - rewrite Hparams. reflexivity.
Qed.

(** X10: how the receiver is bound when the arguments suffice.  With
    pass-receiver, a callable that is not a pointer to member function
    gets [this] as its first parameter and [argv[i]] as parameter
    [i + 1]; a pointer to member function gets its object from [this] and
    parameter [i] from [argv[i]].  Without pass-receiver, a pointer to
    member function gets its object from [argv[0]] and parameter [i] from
    [argv[i + 1]]. *)
Theorem receiver_binding :
  ∀ (o : evaluation_order) (f : callable V) (Ts : list (unwrap_fn V))
    (this_val : JSValue) (argc : Z) (argv : argv_t) (st : JSContext),
    0 ≤ argc < 2 ^ 31 →
    (∀ T0, owner_type f = None → args f = map param_plain (T0 :: Ts) →
       Z.of_nat (length Ts) ≤ argc →
       apply_unwrapped o true f this_val argc argv st
       = (tuple ← tuple_cat o (x ← T0 this_val; mret [arg_single x])
                    (unwrap_each o Ts 0 argv);
          function f tuple) st)
    ∧ (∀ Owner, owner_type f = Some Owner → args f = map param_plain Ts →
       Z.of_nat (length Ts) ≤ argc →
       apply_unwrapped o true f this_val argc argv st
       = (tuple ← tuple_cat o (x ← Owner this_val; mret [arg_single x])
                    (unwrap_each o Ts 0 argv);
          function f tuple) st)
    ∧ (∀ Owner, owner_type f = Some Owner → args f = map param_plain Ts →
       Z.of_nat (length Ts) + 1 ≤ argc →
       apply_unwrapped o false f this_val argc argv st
       = (tuple ← tuple_cat o (x ← Owner (argv 0%nat); mret [arg_single x])
                    (unwrap_each o Ts 0 (λ i, argv (S i)));
          function f tuple) st).
Proof.
  intros o f Ts this_val argc argv st Hr.
  assert (Hparams : ∀ NArgs argc' argv' st0,
            0 ≤ argc' < 2 ^ 31 → Z.of_nat (length Ts) ≤ argc' →
            unwrap_args_impl o (map param_plain Ts) 0 NArgs argc' argv' st0
            = unwrap_each o Ts 0 argv' st0).
  { intros NArgs argc' argv' st0 Hr' Hlen.
    apply unwrap_args_impl_enough; [exact Hr' | cbn [plus]; exact Hlen]. }
  split; [| split].
  - intros T0 Hown Hargs Hlen. unfold apply_unwrapped. rewrite Hown, Hargs.
    cbn [map]. unfold unwrap_args.
    change (drop 1 (param_plain T0 :: map param_plain Ts))
      with (map param_plain Ts).
    change (unwrap_arg (param_plain T0) 0 1 1 (addr_of this_val))
      with (x ← T0 this_val; mret (arg_single x)).
    unfold tuple_cat. destruct o; run_native.
    + destruct (T0 this_val st) as [[x | e | ] st1]; try reflexivity.
      rewrite Hparams by assumption. reflexivity.
    + rewrite Hparams by assumption.
      destruct (unwrap_each right_to_left Ts 0 argv st) as [[ys | e | ] st1];
        try reflexivity.
      destruct (T0 this_val st1) as [[x | e | ] st2]; reflexivity.
  - intros Owner Hown Hargs Hlen. unfold apply_unwrapped. rewrite Hown, Hargs.
    unfold unwrap_args. rewrite drop_0.
    change (unwrap_arg_impl Owner 0 1 1 (addr_of this_val)) with (Owner this_val).
    unfold tuple_cat. destruct o; run_native.
    + destruct (Owner this_val st) as [[x | e | ] st1]; try reflexivity.
      rewrite Hparams by assumption. reflexivity.
    + rewrite Hparams by assumption. reflexivity.
  - intros Owner Hown Hargs Hlen. unfold apply_unwrapped. rewrite Hown, Hargs.
    unfold unwrap_args. rewrite drop_0.
    change (unwrap_arg_impl Owner 0 1 1 argv) with (Owner (argv 0%nat)).
    unfold tuple_cat. destruct o; run_native.
    + destruct (Owner (argv 0%nat) st) as [[x | e | ] st1]; try reflexivity.
      rewrite Hparams by lia. reflexivity.
    + rewrite Hparams by lia. reflexivity.
Qed.

(** X11: the arity error of a pointer to member function with [N]
    required parameters, wrapped without pass-receiver and called with
    [M ≥ 1] arguments of which the first is its object, [M - 1 < N].  The
    call fails with the type error naming [N] and [M - 1]: at once when
    the arguments are evaluated from the right; and, when they are
    evaluated from the left, once the object has been unwrapped from
    [argv[0]] and the [M - 1] arguments after it have been converted, in
    this order. *)
Theorem arity_error_with_receiver :
  ∀ (f : callable V) (Owner : unwrap_fn V) (Ts : list (unwrap_fn V))
    (this_val : JSValue) (argc : Z) (argv : argv_t) (st : JSContext),
    owner_type f = Some Owner →
    args f = map param_plain Ts →
    1 ≤ argc < 2 ^ 31 →
    argc - 1 < Z.of_nat (length Ts) →
    wrap_call right_to_left false f this_val argc argv st
    = (Returned JS_EXCEPTION,
       set_exception
         (Some (TypeError (Msg_expected_at_least (length Ts) (argc - 1)))) st)
    ∧ (∀ tuple st1,
         bind_required left_to_right (Some Owner)
           (take (Z.to_nat (argc - 1)) Ts) (argv 0%nat) (λ i, argv (S i)) st
         = (Returned tuple, st1) →
         wrap_call left_to_right false f this_val argc argv st
         = (Returned JS_EXCEPTION,
            set_exception
              (Some (TypeError (Msg_expected_at_least (length Ts) (argc - 1))))
              st1)).
Proof.
  intros f Owner Ts this_val argc argv st Hown Hargs Hr Hfew.
  assert (Hne : Ts ≠ []) by (intros ->; cbn [length] in Hfew; lia).
  pose proof (λ o st0, unwrap_args_impl_too_few o (length Ts) (argc - 1)
                         (λ i, argv (S i)) Ts ltac:(lia) 0%nat st0
                         ltac:(cbn [plus]; lia) Hne) as Htoo.
  rewrite Nat.sub_0_r in Htoo.
  assert (Hbody : ∀ o,
            apply_unwrapped o false f this_val argc argv st
            = (tuple ← tuple_cat o (x ← Owner (argv 0%nat); mret [arg_single x])
                         (unwrap_args_impl o (map param_plain Ts) 0 (length Ts)
                            (argc - 1) (λ i, argv (S i)));
               function f tuple) st).
  { intros o. unfold apply_unwrapped. rewrite Hown, Hargs.
    unfold unwrap_args. rewrite drop_0, length_map. reflexivity. }
  split.
  - apply wrap_call_catches. rewrite Hbody.
    unfold tuple_cat. run_native. rewrite (Htoo right_to_left st). reflexivity.
  - intros tuple st1 Hconv. apply wrap_call_catches. rewrite Hbody.
    unfold bind_required, tuple_cat in Hconv |- *.
    unfold mbind, native_bind, mret, native_ret in Hconv |- *.
    destruct (Owner (argv 0%nat) st) as [[x | e | ] s0]; try discriminate.
    rewrite (Htoo left_to_right s0).
    destruct (unwrap_each left_to_right _ 0 _ s0) as [[xs | e | ] s1];
      try discriminate.
    injection Hconv as _ <-. reflexivity.
Qed.

End WrappingMore.

Lemma arity_error_with_receiver_witness :
  let T : FunctionWrapping.unwrap_fn Z := λ val, mret (js_ptr val) in
  let f :=
    FunctionWrapping.mk_callable (Some T)
      [FunctionWrapping.param_plain T; FunctionWrapping.param_plain T]
      (λ _, mret 0) None in
  FunctionWrapping.wrap_call FunctionWrapping.left_to_right false f
    JS_UNDEFINED 2 (λ _, mkJSValue JS_TAG_INT 5) SmallEngine.empty_context
  = (Returned JS_EXCEPTION,
     set_exception (Some (TypeError (Msg_expected_at_least 2 (2 - 1))))
       SmallEngine.empty_context).
Proof.
  intros T f.
  refine (proj2 (arity_error_with_receiver f T [T; T] JS_UNDEFINED 2
                   (λ _, mkJSValue JS_TAG_INT 5) SmallEngine.empty_context
                   eq_refl eq_refl _ _)
            [FunctionWrapping.arg_single 5; FunctionWrapping.arg_single 5]
            SmallEngine.empty_context _).
  - lia.
  - cbn. lia.
  - reflexivity.
Defined.

Lemma receiver_binding_witness :
  let T : FunctionWrapping.unwrap_fn Z := λ val, mret (js_ptr val) in
  let f :=
    FunctionWrapping.mk_callable None
      [FunctionWrapping.param_plain T; FunctionWrapping.param_plain T]
      (λ tuple,
         match tuple with
         | [FunctionWrapping.arg_single this; FunctionWrapping.arg_single x] =>
             mret (100 * this + x)
         | _ => mret (-1)
         end)
      None in
  FunctionWrapping.apply_unwrapped FunctionWrapping.right_to_left true f
    (mkJSValue JS_TAG_INT 7) 1 (λ i, mkJSValue JS_TAG_INT (10 + Z.of_nat i))
    SmallEngine.empty_context
  = (Returned 710, SmallEngine.empty_context).
Proof.
  intros T f.
  exact (eq_trans
           (proj1 (receiver_binding FunctionWrapping.right_to_left f [T]
                     (mkJSValue JS_TAG_INT 7) 1
                     (λ i, mkJSValue JS_TAG_INT (10 + Z.of_nat i))
                     SmallEngine.empty_context ltac:(lia))
              T eq_refl eq_refl ltac:(cbn; lia))
           eq_refl).
Defined.

Lemma unwrap_args_binds_trailing_rest_witness :
  let T : FunctionWrapping.unwrap_fn Z := λ val, mret (js_ptr val) in
  FunctionWrapping.unwrap_args FunctionWrapping.right_to_left
    [FunctionWrapping.param_plain T; FunctionWrapping.param_rest T] 0 3
    (λ i, mkJSValue JS_TAG_INT (Z.of_nat i)) SmallEngine.empty_context
  = (Returned [FunctionWrapping.arg_single 0; FunctionWrapping.arg_rest [1; 2]],
     SmallEngine.empty_context).
Proof.
  intros T.
  exact (eq_trans
           (unwrap_args_binds_trailing_rest FunctionWrapping.right_to_left
              [T] T 3 (λ i, mkJSValue JS_TAG_INT (Z.of_nat i))
              SmallEngine.empty_context ltac:(cbn; lia))
           eq_refl).
Defined.

Lemma member_pointer_call_without_arguments_witness :
  let T : FunctionWrapping.unwrap_fn Z := λ val, mret (js_ptr val) in
  let f :=
    FunctionWrapping.mk_callable (Some T) [FunctionWrapping.param_plain T]
      (λ tuple,
         match tuple with
         | [FunctionWrapping.arg_single this; FunctionWrapping.arg_single x] =>
             mret (100 * this + x)
         | _ => mret (-1)
         end)
      None in
  FunctionWrapping.apply_unwrapped FunctionWrapping.left_to_right false f
    JS_UNDEFINED 0 (λ i, mkJSValue JS_TAG_INT (10 + Z.of_nat i))
    SmallEngine.empty_context
  = (Returned 1011, SmallEngine.empty_context).
Proof.
  intros T f.
  exact (eq_trans
           (member_pointer_call_without_arguments FunctionWrapping.left_to_right
              f T [T] JS_UNDEFINED (λ i, mkJSValue JS_TAG_INT (10 + Z.of_nat i))
              SmallEngine.empty_context eq_refl eq_refl ltac:(cbn; lia))
           eq_refl).
Defined.

(** ** Handles, continued *)

Section HandlePrograms.
Import ValueHandle HandlePool.

Lemma weight_range p h : 0 ≤ weight p h ≤ 1.
Proof. unfold weight. destruct (_ && _); lia. Qed.

Lemma owners_nonneg p pool : 0 ≤ owners p pool.
Proof.
  induction pool as [| h pool IH]; cbn [owners]; [lia |].
  pose proof (weight_range p h). lia.
Qed.

Lemma owners_app p pool pool' :
  owners p (pool ++ pool') = owners p pool + owners p pool'.
Proof. induction pool as [| h pool IH]; cbn [app owners]; lia. Qed.

Lemma owners_insert p pool : ∀ i h h',
  pool !! i = Some h →
  owners p (<[i := h']> pool) = owners p pool - weight p h + weight p h'.
Proof.
  induction pool as [| x pool IH]; intros i h h' Hi; [discriminate |].
  destruct i as [| i]; cbn in Hi.
  - injection Hi as ->. change (<[0%nat := h']> (h :: pool)) with (h' :: pool).
    cbn [owners]. lia.
  - change (<[S i := h']> (x :: pool)) with (x :: <[i := h']> pool).
    cbn [owners]. rewrite (IH i h h' Hi). lia.
Qed.

Lemma owners_delete p pool : ∀ i h,
  pool !! i = Some h →
  owners p (delete i pool) = owners p pool - weight p h.
Proof.
  induction pool as [| x pool IH]; intros i h Hi; [discriminate |].
  destruct i as [| i]; cbn in Hi.
  - injection Hi as ->. change (delete 0%nat (h :: pool)) with pool.
    cbn [owners]. lia.
  - change (delete (S i) (x :: pool)) with (x :: delete i pool).
    cbn [owners]. rewrite (IH i h Hi). lia.
Qed.

Lemma owners_member p pool h :
  h ∈ pool → weight p h ≤ owners p pool.
Proof.
  intros [i Hi]%list_elem_of_lookup. revert i Hi.
  induction pool as [| x pool IH]; intros i Hi; [discriminate |].
  destruct i as [| i]; cbn in Hi |- *.
  - injection Hi as ->. pose proof (owners_nonneg p pool). lia.
  - specialize (IH i Hi). pose proof (weight_range p x). lia.
Qed.

Lemma weight_not_owning p h : owning h = false → weight p h = 0.
Proof. unfold weight. intros ->. reflexivity. Qed.

Lemma weight_moved_from p h : weight p (mkValue None (v h)) = 0.
Proof. reflexivity. Qed.

Lemma weight_eta p h : weight p (mkValue (ctx h) (v h)) = weight p h.
Proof. destruct h; reflexivity. Qed.

Lemma counted_dup (cnt cnt' : Z → Z) (h : value) (st : JSContext) :
  counted cnt st →
  (∀ p, cnt' p ≤ cnt p + weight p h) →
  (∀ p, 0 < cnt' p → 0 < cnt p) →
  counted cnt' (JS_DupValue (v h) st).2.
Proof.
  intros Hinv Hle Hpos p Hp.
  destruct (Hinv p (Hpos p Hp)) as [[rc pl] [Hc Hrc]]. cbn in Hrc.
  specialize (Hle p). unfold JS_DupValue.
  destruct (JS_VALUE_HAS_REF_COUNT (v h)) eqn:Href; cbn [snd heap set_heap].
  - rewrite lookup_alter. destruct (decide (js_ptr (v h) = p)) as [-> | Hne].
    + rewrite Hc. cbn. eexists. split; [reflexivity |]. cbn.
      pose proof (weight_range p h). lia.
    + exists (mkCell rc pl). split; [exact Hc |]. cbn.
      unfold weight in Hle. rewrite bool_decide_eq_false_2, andb_false_r in Hle
        by exact Hne. lia.
  - exists (mkCell rc pl). split; [exact Hc |]. cbn.
    unfold weight, owning in Hle. rewrite Href, andb_false_r in Hle. cbn in Hle.
    lia.
Qed.

Lemma counted_destroy (cnt cnt' : Z → Z) (h : value) (st : JSContext) :
  counted cnt st →
  (∀ p, cnt' p ≤ cnt p - weight p h) →
  counted cnt' (destroy h st).
Proof.
  intros Hinv Hle p Hp. specialize (Hle p).
  pose proof (weight_range p h) as Hw.
  destruct (Hinv p ltac:(lia)) as [[rc pl] [Hc Hrc]]. cbn in Hrc.
  assert (Hkeep : ∃ c, heap st !! p = Some c ∧ cnt' p ≤ ref_count c).
  { exists (mkCell rc pl). split; [exact Hc | cbn; lia]. }
  unfold destroy. destruct (ctx h) as [c0 |] eqn:Hctx; [| exact Hkeep].
  case_bool_decide as Htag; [| exact Hkeep].
  unfold JS_FreeValue.
  destruct (JS_VALUE_HAS_REF_COUNT (v h)) eqn:Href; [| exact Hkeep].
  destruct (decide (js_ptr (v h) = p)) as [Hq | Hne].
  - assert (Hw1 : weight p h = 1).
    { unfold weight, owning. rewrite Hctx, Href.
      rewrite !bool_decide_eq_true_2 by (done || exact Hq). reflexivity. }
    rewrite Hq, Hc. cbn [ref_count payload].
    destruct (rc - 1 <=? 0) eqn:E; [apply Z.leb_le in E; lia |].
    cbn [heap set_heap]. rewrite lookup_insert_eq.
    eexists. split; [reflexivity |]. cbn. lia.
  - destruct (heap st !! js_ptr (v h)) as [[rc' pl'] |]; [| exact Hkeep].
    cbn [ref_count payload].
    destruct (rc' - 1 <=? 0); cbn [heap set_heap].
    + rewrite lookup_delete_ne by exact Hne. exact Hkeep.
    + rewrite lookup_insert_ne by exact Hne. exact Hkeep.
Qed.

Lemma counted_ext (cnt cnt' : Z → Z) (st : JSContext) :
  counted cnt st → (∀ p, cnt' p ≤ cnt p) → counted cnt' st.
Proof.
  intros Hinv Hle p Hp. specialize (Hle p).
  destruct (Hinv p ltac:(lia)) as [c [Hc Hrc]].
  exists c. split; [exact Hc | lia].
Qed.

Lemma effect_keeps_pool_ok (o : op) (pool : list value) (st : JSContext) :
  pool_ok pool st → pool_ok (effect o pool st).1 (effect o pool st).2.
Proof.
  intros Hok. change (counted (λ p, owners p pool) st) in Hok.
  destruct o as [i | i | i | i | i j | i j]; cbn [effect].
  - destruct (pool !! i) as [h |] eqn:Hi; [| exact Hok].
    unfold copy_construct.
    destruct (JS_DupValue (v h) st) as [v' st'] eqn:Hdup. cbn [fst snd].
    assert (Hv : v' = v h).
    { unfold JS_DupValue in Hdup. destruct (JS_VALUE_HAS_REF_COUNT (v h));
        injection Hdup as <- _; reflexivity. }
    subst v'. replace st' with (JS_DupValue (v h) st).2 by (rewrite Hdup; done).
    apply (counted_dup (λ p, owners p pool) _ h); [exact Hok | |].
    + intros p. rewrite owners_app. cbn [owners]. rewrite weight_eta. lia.
    + intros p. rewrite owners_app. cbn [owners]. rewrite weight_eta.
      pose proof (owners_member p pool h ltac:(eapply list_elem_of_lookup_2; eauto)).
      pose proof (weight_range p h). lia.
  - destruct (pool !! i) as [h |] eqn:Hi; [| exact Hok].
    cbn [move_construct fst snd].
    apply (counted_ext (λ p, owners p pool)); [exact Hok |].
    intros p. rewrite owners_app, (owners_insert p pool i h _ Hi).
    cbn [owners]. rewrite weight_moved_from, weight_eta. lia.
  - destruct (pool !! i) as [h |] eqn:Hi; [| exact Hok].
    cbn [fst snd].
    apply (counted_destroy (λ p, owners p pool)); [exact Hok |].
    intros p. rewrite (owners_delete p pool i h Hi). lia.
  - destruct (pool !! i) as [h |] eqn:Hi; [| exact Hok].
    cbn [release fst snd].
    apply (counted_ext (λ p, owners p pool)); [exact Hok |].
    intros p. rewrite (owners_insert p pool i h _ Hi).
    rewrite weight_moved_from. pose proof (weight_range p h). lia.
  - destruct (pool !! i) as [this |] eqn:Hi; [| exact Hok].
    destruct (pool !! j) as [src |] eqn:Hj; [| exact Hok].
    unfold copy_construct.
    destruct (JS_DupValue (v src) st) as [v' st1] eqn:Hdup.
    assert (Hv : v' = v src).
    { unfold JS_DupValue in Hdup. destruct (JS_VALUE_HAS_REF_COUNT (v src));
        injection Hdup as <- _; reflexivity. }
    subst v'. replace st1 with (JS_DupValue (v src) st).2 by (rewrite Hdup; done).
    cbn [assign ctx v fst snd].
    apply (counted_destroy (λ p, owners p pool + weight p src)).
    + apply (counted_dup (λ p, owners p pool) _ src); [exact Hok | |].
      * intros p. lia.
      * intros p.
        pose proof (owners_member p pool src
                      ltac:(eapply list_elem_of_lookup_2; eauto)).
        pose proof (weight_range p src). lia.
    + intros p. rewrite (owners_insert p pool i this _ Hi).
      rewrite !weight_eta. lia.
  - destruct (pool !! j) as [src |] eqn:Hj; [| exact Hok].
    cbn [move_construct].
    destruct (<[j := mkValue None (v src)]> pool !! i) as [this |] eqn:Hi;
      [| exact Hok].
    cbn [assign ctx v fst snd].
    apply (counted_destroy (λ p, owners p pool)); [exact Hok |].
    intros p. rewrite (owners_insert p _ i this _ Hi).
    rewrite (owners_insert p pool j src _ Hj).
    rewrite weight_moved_from, !weight_eta. lia.
Qed.

Lemma owning_is_live (pool : list value) (st : JSContext) (h : value) :
  pool_ok pool st → h ∈ pool → owning h = true →
  ∃ c, heap st !! js_ptr (v h) = Some c ∧ 0 < ref_count c.
Proof.
  intros Hok Hin Hown.
  pose proof (owners_member (js_ptr (v h)) _ h Hin) as Hw.
  assert (Hw1 : weight (js_ptr (v h)) h = 1).
  { unfold weight. rewrite Hown, bool_decide_eq_true_2 by reflexivity.
    reflexivity. }
  destruct (Hok (js_ptr (v h)) ltac:(lia)) as [c [Hc Hrc]].
  exists c. split; [exact Hc | lia].
Qed.

Lemma owning_not_dangling (pool : list value) (st : JSContext) (h : value) :
  pool_ok pool st → h ∈ pool → owning h && dangling (v h) st = false.
Proof.
  intros Hok Hin. destruct (owning h) eqn:Hown; [| reflexivity].
  destruct (owning_is_live pool st h Hok Hin Hown) as (c & Hc & _).
  unfold dangling. rewrite Hc.
  rewrite bool_decide_eq_false_2 by discriminate. apply andb_false_r.
Qed.

Lemma keeper_not_dangling (pool : list value) (st : JSContext) (h : value) :
  pool_ok pool st → h ∈ pool → keeps_reference h = true →
  dangling (v h) st = false.
Proof.
  intros Hok Hin Hkeep. unfold keeps_reference in Hkeep.
  pose proof (owning_not_dangling pool st h Hok Hin) as Hnd.
  destruct (owning h); [exact Hnd |].
  cbn in Hkeep. apply negb_true_iff in Hkeep.
  unfold dangling. rewrite Hkeep. reflexivity.
Qed.

Lemma dangling_after_dup (val src : JSValue) (st : JSContext) :
  dangling val (JS_DupValue src st).2 = dangling val st.
Proof.
  unfold dangling, JS_DupValue.
  destruct (JS_VALUE_HAS_REF_COUNT src); [| reflexivity].
  cbn [snd heap set_heap]. f_equal. rewrite lookup_alter.
  destruct (decide (js_ptr src = js_ptr val)) as [-> | Hne]; [| reflexivity].
  destruct (heap st !! js_ptr val); reflexivity.
Qed.

(** Under the invariant, an operation that copies a keeper has defined
    behaviour. *)
Lemma disciplined_step_defined (o : op) (pool : list value) (st : JSContext) :
  pool_ok pool st → copies_keeper o pool = true → undefined o pool st = false.
Proof.
  intros Hok Hsrc.
  destruct o as [i | i | i | i | i j | i j]; cbn [undefined copies_keeper] in *;
    try reflexivity.
  - destruct (pool !! i) as [h |] eqn:Hi; [| reflexivity].
    apply (keeper_not_dangling pool st h Hok); [| exact Hsrc].
    eapply list_elem_of_lookup_2; eauto.
  - destruct (pool !! i) as [h |] eqn:Hi; [| reflexivity].
    apply (owning_not_dangling pool st h Hok).
    eapply list_elem_of_lookup_2; eauto.
  - destruct (pool !! i) as [this |] eqn:Hi; [| reflexivity].
    destruct (pool !! j) as [src |] eqn:Hj; [| reflexivity].
    rewrite (keeper_not_dangling pool st src Hok) by
      (try exact Hsrc; eapply list_elem_of_lookup_2; eauto).
    cbn [orb]. unfold copy_construct.
    pose proof (dangling_after_dup (v this) (v src) st) as Hdup.
    destruct (JS_DupValue (v src) st) as [v' st1]. cbn [snd] in *.
    rewrite Hdup. apply (owning_not_dangling pool st this Hok).
    eapply list_elem_of_lookup_2; eauto.
  - destruct (pool !! j) as [src |] eqn:Hj; [| reflexivity].
    cbn [move_construct snd].
    destruct (<[j := mkValue None (v src)]> pool !! i) as [this |] eqn:Hi;
      [| reflexivity].
    destruct (decide (i = j)) as [-> | Hne].
    + rewrite list_lookup_insert_eq in Hi by (eapply lookup_lt_Some; eauto).
      injection Hi as <-. reflexivity.
    + rewrite list_lookup_insert_ne in Hi by congruence.
      apply (owning_not_dangling pool st this Hok).
      eapply list_elem_of_lookup_2; eauto.
Qed.

(** X12: programs of copies, moves, releases, assignments and
    destructions of handles.  If every cell owned by a handle is live
    and counts the handles' references at the start, then a program
    that, along its run, copies only handles that own their reference or
    hold a value without reference count never passes a dangling pointer
    to the engine; and whenever a program runs to its end, the invariant
    holds at the end, and every handle that still owns a reference points
    to a live cell with a positive count.  Without the discipline the
    behaviour can be undefined: after the only owner of a cell has been
    moved from and the handle moved to has been destroyed, copying the
    moved-from handle duplicates the freed value. *)
Theorem handle_programs_never_dangle :
  (∀ (ops : list op) (pool : list value) (st : JSContext),
      pool_ok pool st →
      (disciplined ops pool st = true →
         ∃ pool' st', run ops pool st = Some (pool', st'))
      ∧ (∀ pool' st', run ops pool st = Some (pool', st') →
           pool_ok pool' st'
           ∧ (∀ h, h ∈ pool' → owning h = true →
                   ∃ c, heap st' !! js_ptr (v h) = Some c ∧ 0 < ref_count c)))
  ∧ (∀ (c : N) (p : Z) (pl : cell_payload) (st : JSContext),
      heap st !! p = Some (mkCell 1 pl) →
      run [op_move 0; op_destroy 1; op_copy 0]
        [mkValue (Some c) (mkJSValue JS_TAG_OBJECT p)] st
      = None).
Proof.
  split.
  - induction ops as [| o ops IH]; intros pool st Hok.
    + split.
      * intros _. eexists _, _. reflexivity.
      * intros pool' st' [= <- <-]. split; [exact Hok |].
        intros h Hin Hown. exact (owning_is_live pool st h Hok Hin Hown).
    + cbn [run disciplined]. unfold step.
      pose proof (effect_keeps_pool_ok o pool st Hok) as Hnext.
      destruct (IH (effect o pool st).1 (effect o pool st).2 Hnext)
        as [Hprogress Hend].
      split.
      * intros [Hsrc Hrest]%andb_true_iff.
        rewrite (disciplined_step_defined o pool st Hok Hsrc).
        destruct (effect o pool st) as [pool1 st1]. exact (Hprogress Hrest).
      * intros pool' st'. destruct (undefined o pool st); [discriminate |].
        destruct (effect o pool st) as [pool1 st1]. apply Hend.
  - intros c p pl st Hcell.
    set (raw := mkJSValue JS_TAG_OBJECT p).
    set (h := mkValue (Some c) raw).
    assert (Hlive : dangling raw st = false).
    { unfold dangling. cbn [raw js_ptr]. rewrite Hcell.
      rewrite bool_decide_eq_false_2 by discriminate. apply andb_false_r. }
    assert (Hfreed : dangling raw (destroy h st) = true).
    { unfold destroy, JS_FreeValue, dangling.
      cbn [h raw ctx v JS_VALUE_GET_TAG js_tag js_ptr JS_VALUE_HAS_REF_COUNT].
      rewrite (bool_decide_eq_true_2 (JS_TAG_OBJECT ≠ JS_TAG_MODULE))
        by discriminate.
      rewrite Hcell.
      cbn [ref_count]. change (1 - 1 <=? 0) with true. cbn [heap set_heap andb].
      rewrite lookup_delete_eq. apply bool_decide_eq_true_2. reflexivity. }
    cbn [run].
    change (step (op_move 0) [h] st) with (Some ([mkValue None raw; h], st)).
    cbn beta iota.
    assert (Hdestroy : step (op_destroy 1) [mkValue None raw; h] st
                       = Some ([mkValue None raw], destroy h st)).
    { unfold step.
      change (undefined (op_destroy 1) [mkValue None raw; h] st)
        with (owning h && dangling raw st).
      rewrite Hlive, andb_false_r. reflexivity. }
    rewrite Hdestroy. cbn beta iota.
    unfold step.
    change (undefined (op_copy 0) [mkValue None raw] (destroy h st))
      with (dangling raw (destroy h st)).
    rewrite Hfreed. reflexivity.
Qed.

(** X13: copy-assigning a handle to itself leaves the handle and the heap
    as they were, when the handle owns a reference on a live cell or its
    value has no reference count. *)
Theorem self_assignment_changes_nothing :
  ∀ (a : value) (st : JSContext),
    (JS_VALUE_HAS_REF_COUNT (v a) = true →
     owning a = true
     ∧ ∃ c, heap st !! js_ptr (v a) = Some c ∧ 1 ≤ ref_count c) →
    (let '(param, st1) := copy_construct a st in assign a param st1) = (a, st).
Proof.
  intros a st Hlive. unfold copy_construct.
  rewrite <- (add_refs_zero (v a) st) at 1.
  rewrite add_refs_dup. destruct a as [c raw]. unfold assign.
  cbn [ctx v] in *. f_equal.
  destruct (JS_VALUE_HAS_REF_COUNT raw) eqn:Href.
  - destruct (Hlive eq_refl) as [Hown Hcell].
    unfold owning in Hown. cbn [ctx v] in Hown. rewrite Href in Hown.
    apply andb_true_iff in Hown as [Hown _].
    apply andb_true_iff in Hown as [Hctx Htag].
    apply bool_decide_eq_true_1 in Hctx. apply bool_decide_eq_true_1 in Htag.
    unfold destroy. cbn [ctx v]. destruct c as [c |]; [| done].
    rewrite bool_decide_eq_true_2 by exact Htag.
    rewrite (add_refs_free raw st 0); [apply add_refs_zero | lia |].
    intros _. exact Hcell.
  - unfold destroy, JS_FreeValue, add_refs. cbn [ctx v]. rewrite Href.
    destruct c; [destruct (bool_decide _) |]; reflexivity.
Qed.

Lemma handle_programs_never_dangle_witness :
  let h := mkValue (Some 1%N) (mkJSValue JS_TAG_OBJECT 7) in
  let st := mkContext None {[ 7 := mkCell 1 P_other ]} 1%N in
  let ops := [op_copy 0; op_assign_move 0 1; op_destroy 1; op_copy 0;
              op_assign_copy 1 0; op_release 0] in
  (∃ pool' st', run ops [h] st = Some (pool', st'))
  ∧ run [op_move 0; op_destroy 1; op_copy 0] [h] st = None.
Proof.
  intros h st ops. split.
  - apply (proj1 (proj1 handle_programs_never_dangle ops [h] st
                    ltac:(intros p Hp; cbn [owners] in Hp |- *;
                          unfold weight in Hp |- *;
                          destruct (decide (js_ptr (v h) = p)) as [<- | Hne];
                          [ exists (mkCell 1 P_other); split; [reflexivity |];
                            destruct (_ && _); cbn; lia
                          | rewrite bool_decide_eq_false_2, andb_false_r in Hp
                              by exact Hne; lia ]))).
    vm_compute. reflexivity.
  - apply (proj2 handle_programs_never_dangle 1%N 7 P_other st). reflexivity.
Defined.

Lemma self_assignment_changes_nothing_witness :
  let a := mkValue (Some 1%N) (mkJSValue JS_TAG_OBJECT 7) in
  let st := mkContext None {[ 7 := mkCell 1 P_other ]} 1%N in
  (let '(param, st1) := copy_construct a st in assign a param st1) = (a, st).
Proof.
  intros a st. apply (self_assignment_changes_nothing a st).
  intros _. split; [reflexivity |].
  exists (mkCell 1 P_other). split; [reflexivity |]. cbn. lia.
Defined.

End HandlePrograms.

(** ** Classes, continued *)

Section CastsMore.
Import ClassRegistry.

Lemma convert_convert (a b : Z) (ptr : shared_ptr) :
  convert a (convert b ptr) = convert (a + b) ptr.
Proof.
  destruct ptr as [[addr dyn] |]; [| reflexivity].
  cbn. do 2 f_equal. lia.
Qed.

Lemma converted_converted (a b : Z)
    (r : option (outcome shared_ptr * JSContext)) :
  converted a (converted b r) = converted (a + b) r.
Proof.
  destruct r as [[[ptr | e | ] st] |]; try reflexivity.
  cbn. rewrite convert_convert. reflexivity.
Qed.

(** A stored cast function is the [unwrap] of the class it ends in,
    followed by one conversion by the sum of its offsets. *)
Lemma call_ptr_cast_fcn_target
    (unwrap_of : ctype → JSValue → JSContext → option (outcome shared_ptr * JSContext))
    (f : ptr_cast_fcn) (val : JSValue) (st : JSContext) :
  call_ptr_cast_fcn unwrap_of f val st
  = converted (offset_of f) (unwrap_of (target f) val st).
Proof.
  induction f as [D off | T off f IH]; [reflexivity |].
  cbn [call_ptr_cast_fcn offset_of target]. rewrite IH.
  apply converted_converted.
Qed.

Lemma unwrap_returns_the_opaque_slot (fuel : nat) :
  ∀ (reg : registry) (T : ctype) (val : JSValue) (st st' : JSContext)
    (ptr : shared_ptr),
    JS_IsNull val = false →
    unwrap fuel reg T val st = Some (Returned ptr, st') →
    st' = st
    ∧ ∃ rc id inst,
        js_tag val = JS_TAG_OBJECT
        ∧ heap st !! js_ptr val = Some (mkCell rc (P_object id (Some inst)))
        ∧ ptr = Some (mkInstance (address inst + offset_to fuel reg T id)
                        (dynamic_type inst)).
Proof.
  induction fuel as [| fuel IH]; intros reg T val st st' ptr Hnull Hres;
    [discriminate |].
  cbn [unwrap] in Hres. rewrite Hnull in Hres.
  assert (Hclass : ∀ rc id opaque,
            js_tag val = JS_TAG_OBJECT →
            heap st !! js_ptr val = Some (mkCell rc (P_object id opaque)) →
            JS_GetClassID val st = id).
  { intros rc id opaque Htag Hcell. unfold JS_GetClassID.
    rewrite Htag, Hcell. reflexivity. }
  destruct (decide (JS_GetClassID val st = qjs_class_id (reg T))) as [Hid | Hid].
  - unfold JS_GetOpaque2 in Hres.
    destruct (js_tag val) eqn:Htag;
      try (cbn in Hres; discriminate).
    destruct (heap st !! js_ptr val) as [[rc [ | id opaque | | ]] |] eqn:Hcell;
      try (cbn in Hres; discriminate).
    destruct (decide (id = JS_GetClassID val st)) as [Heq |];
      [| cbn in Hres; discriminate].
    destruct opaque as [inst |]; cbn in Hres; [| discriminate].
    injection Hres as <- <-. split; [reflexivity |].
    exists rc, id, inst. repeat split; try reflexivity.
    cbn [offset_to]. rewrite decide_True by congruence.
    destruct inst as [addr dyn]. cbn. do 2 f_equal. lia.
  - destruct (ptr_cast_fcn_map (reg T) !! JS_GetClassID val st) as [f |] eqn:Hmap;
      [| cbn in Hres; discriminate].
    rewrite call_ptr_cast_fcn_target in Hres.
    destruct (unwrap fuel reg (target f) val st) as [[[ptr0 | e | ] st0] |] eqn:Hin;
      try discriminate.
    destruct (IH _ _ _ _ _ _ Hnull Hin)
      as [-> (rc & id & inst & Htag & Hcell & ->)].
    cbn in Hres. injection Hres as <- <-. split; [reflexivity |].
    exists rc, id, inst. repeat split; try assumption.
    rewrite (Hclass rc id (Some inst) Htag Hcell) in Hid, Hmap.
    cbn [offset_to]. rewrite decide_False by exact Hid. rewrite Hmap.
    do 2 f_equal. lia.
Qed.

(** X14: for cast tables that hold cast functions of the two kinds the
    sources write down, whichever they are, a successful unwrap as
    [shared_ptr<T>] leaves the context as it was and returns the empty
    pointer exactly for the null value; for any other value, the value is
    an object whose opaque slot holds a pointer that is not empty, and
    the pointer returned points into the instance of the slot: it has its
    dynamic type, and its address is the stored one moved by the offsets
    of the conversions to base classes on the way, none for an object of
    class [T] itself. *)
Theorem shared_ptr_unwrap_returns_the_stored_instance :
  ∀ (fuel : nat) (reg : registry) (T : ctype) (val : JSValue)
    (st st' : JSContext) (ptr : shared_ptr),
    unwrap fuel reg T val st = Some (Returned ptr, st') →
    st' = st
    ∧ (ptr = None ↔ JS_IsNull val = true)
    ∧ (JS_IsNull val = false →
       ∃ rc id inst,
         js_tag val = JS_TAG_OBJECT
         ∧ heap st !! js_ptr val = Some (mkCell rc (P_object id (Some inst)))
         ∧ ptr = Some (mkInstance (address inst + offset_to fuel reg T id)
                         (dynamic_type inst))
         ∧ (id = qjs_class_id (reg T) → ptr = Some inst)).
Proof.
  intros fuel reg T val st st' ptr Hres.
  destruct (JS_IsNull val) eqn:Hnull.
  - destruct fuel as [| fuel]; [discriminate |].
    cbn [unwrap] in Hres. rewrite Hnull in Hres. injection Hres as <- <-.
    split; [reflexivity |]. split; [tauto | discriminate].
  - destruct (unwrap_returns_the_opaque_slot fuel reg T val st st' ptr Hnull Hres)
      as [-> (rc & id & inst & Htag & Hcell & ->)].
    split; [reflexivity |]. split; [split; discriminate |].
    intros _. exists rc, id, inst. repeat split; try assumption.
    intros Hid. destruct fuel as [| fuel]; [discriminate |].
    cbn [offset_to]. rewrite decide_True by exact Hid.
    destruct inst as [addr dyn]. cbn. do 2 f_equal. lia.
Qed.

(** X15: a successful unwrap as [T*] returns [nullptr] exactly for the
    null value; for any other value it returns an address inside the
    instance stored in the opaque slot of the object: the address stored
    for an object of class [T] itself, and that address moved by the
    offsets of the conversions to base classes otherwise. *)
Theorem pointer_unwrap_is_null_only_for_null :
  ∀ (fuel : nat) (reg : registry) (T : ctype) (val : JSValue)
    (st st' : JSContext) (p : option Z),
    PointerTraits.unwrap fuel reg T val st = Some (Returned p, st') →
    (p = None ↔ JS_IsNull val = true)
    ∧ (JS_IsNull val = false →
       ∃ rc id inst,
         heap st !! js_ptr val = Some (mkCell rc (P_object id (Some inst)))
         ∧ p = Some (address inst + offset_to fuel reg T id)
         ∧ (id = qjs_class_id (reg T) → p = Some (address inst))).
Proof.
  intros fuel reg T val st st' p Hres. unfold PointerTraits.unwrap in Hres.
  destruct (JS_IsNull val) eqn:Hnull.
  - injection Hres as <- <-. split; [tauto | discriminate].
  - destruct (unwrap fuel reg T val st) as [[[ptr | e | ] st0] |] eqn:Hin;
      try discriminate.
    injection Hres as <- <-.
    destruct (unwrap_returns_the_opaque_slot fuel reg T val st st0 ptr Hnull Hin)
      as [-> (rc & id & inst & Htag & Hcell & ->)].
    split; [split; discriminate |]. intros _.
    exists rc, id, inst. repeat split; try assumption.
    intros Hid. destruct fuel as [| fuel]; [discriminate |].
    cbn [offset_to]. rewrite decide_True by exact Hid.
    cbn. f_equal. lia.
Qed.

Lemma shared_ptr_unwrap_returns_the_stored_instance_witness :
  let reg : registry :=
    <["Second" := mk_statics 5%N no_target {[ 6%N := cast_unwrap "Multi" 16 ]}]>
      (<["Multi" := mk_statics 6%N no_target ∅]> (λ _, initial)) in
  let inst := mkInstance 4096 "Multi" in
  let st := mkContext None {[ 64 := mkCell 1 (P_object 6%N (Some inst)) ]} 7%N in
  let val := mkJSValue JS_TAG_OBJECT 64 in
  unwrap 2 reg "Second" val st
  = Some (Returned (Some (mkInstance 4112 "Multi")), st)
  ∧ offset_to 2 reg "Second" 6%N = 16
  ∧ (Some (mkInstance 4112 "Multi") = None ↔ JS_IsNull val = true).
Proof.
  intros reg inst st val. split; [reflexivity |]. split; [reflexivity |].
  exact (proj1 (proj2 (shared_ptr_unwrap_returns_the_stored_instance
                         2 reg "Second" val st st
                         (Some (mkInstance 4112 "Multi")) eq_refl))).
Defined.

Lemma pointer_unwrap_is_null_only_for_null_witness :
  let reg : registry :=
    <["Second" := mk_statics 5%N no_target {[ 6%N := cast_unwrap "Multi" 16 ]}]>
      (<["Multi" := mk_statics 6%N no_target ∅]> (λ _, initial)) in
  let inst := mkInstance 4096 "Multi" in
  let st := mkContext None {[ 64 := mkCell 1 (P_object 6%N (Some inst)) ]} 7%N in
  let val := mkJSValue JS_TAG_OBJECT 64 in
  PointerTraits.unwrap 2 reg "Second" val st = Some (Returned (Some 4112), st)
  ∧ (Some 4112 = None ↔ JS_IsNull val = true).
Proof.
  intros reg inst st val. split; [reflexivity |].
  exact (proj1 (pointer_unwrap_is_null_only_for_null
                  2 reg "Second" val st st (Some 4112) eq_refl)).
Defined.

End CastsMore.

(** ** Resource names, temporaries and callbacks *)

Section Uris.
Import Uri.

(** X21: [to_uri] returns a name that contains [://] as it is, without
    asking the file system; for any other name it fails as
    [std::filesystem::absolute] does when that throws, and otherwise
    returns the absolute path behind [file://].  So whatever it returns
    contains [://], and applying it to what it returned gives the same
    again. *)
Theorem to_uri_is_idempotent :
  ∀ (absolute : string → outcome string) (win32 : bool) (filename : string),
    (contains "://" filename = true →
       to_uri absolute win32 filename = Returned filename)
    ∧ (contains "://" filename = false →
       (∀ e, absolute filename = Threw e →
             to_uri absolute win32 filename = Threw e)
       ∧ (∀ abspath, absolute filename = Returned abspath →
             to_uri absolute win32 filename
             = Returned (String.append "file://"
                           (if win32 then String.append "/" abspath
                            else abspath))))
    ∧ (∀ uri, to_uri absolute win32 filename = Returned uri →
         contains "://" uri = true
         ∧ to_uri absolute win32 uri = Returned uri).
Proof.
  intros absolute win32 filename.
  split; [| split].
  - intros Hc. unfold to_uri. rewrite Hc. reflexivity.
  - intros Hc. unfold to_uri. rewrite Hc.
    split; [intros e -> | intros abspath ->]; reflexivity.
  - intros uri Huri.
    assert (Hin : contains "://" uri = true).
    { unfold to_uri in Huri. destruct (contains "://" filename) eqn:E.
      - injection Huri as <-. exact E.
      - destruct (absolute filename) as [abspath | e | ]; try discriminate.
        injection Huri as <-. unfold contains.
        generalize (if win32 then String.append "/" abspath else abspath).
        intros path. destruct path; reflexivity. }
    split; [exact Hin |]. unfold to_uri. rewrite Hin. reflexivity.
Qed.

Lemma to_uri_is_idempotent_witness :
  let absolute : string → outcome string :=
    λ filename,
      if String.eqb filename EmptyString
      then Threw (std_exception "filesystem error: cannot make absolute path")
      else Returned (String.append "/home/user/" filename) in
  to_uri absolute false "main.js" = Returned "file:///home/user/main.js"
  ∧ to_uri absolute false "file:///home/user/main.js"
    = Returned "file:///home/user/main.js"
  ∧ to_uri absolute false EmptyString
    = Threw (std_exception "filesystem error: cannot make absolute path").
Proof.
  intros absolute. split; [| split].
  - apply (proj2 (proj1 (proj2 (to_uri_is_idempotent absolute false "main.js"))
                    eq_refl) "/home/user/main.js").
    reflexivity.
  - apply (proj2 (proj2 (proj2 (to_uri_is_idempotent absolute false "main.js"))
                    "file:///home/user/main.js" eq_refl)).
  - apply (proj1 (proj1 (proj2 (to_uri_is_idempotent absolute false EmptyString))
                    eq_refl)).
    reflexivity.
Defined.

End Uris.

Section Temporaries.
Import ValueHandle Detail.

(** X22: [unwrap_free<JSValue>] and [unwrap_free<value>] pass on the
    reference of the value they are given: for a value without reference
    count, or one whose cell is live, the heap is left as it was, and the
    result is that value, as an owning handle in the second case. *)
Theorem unwrap_free_passes_the_reference_on :
  ∀ (c : option N) (val : JSValue) (st : JSContext),
    (JS_VALUE_HAS_REF_COUNT val = true →
     ∃ cell, heap st !! js_ptr val = Some cell ∧ 1 ≤ ref_count cell) →
    unwrap_free unwrap_JSValue val st = (Returned val, st)
    ∧ unwrap_free (unwrap_value c) val st = (Returned (mkValue c val), st).
Proof.
  intros c val st Hlive.
  assert (Hback : JS_FreeValue val (add_refs (0 + 1) val st) = st).
  { rewrite add_refs_free by (lia || exact Hlive). apply add_refs_zero. }
  unfold unwrap_free, unwrap_JSValue, unwrap_value.
  rewrite <- (add_refs_zero val st) at 1 3.
  rewrite add_refs_dup, Hback. split; reflexivity.
Qed.

Lemma unwrap_free_passes_the_reference_on_witness :
  let val := mkJSValue JS_TAG_OBJECT 7 in
  let st := mkContext None {[ 7 := mkCell 1 P_other ]} 1%N in
  unwrap_free unwrap_JSValue val st = (Returned val, st)
  ∧ unwrap_free (unwrap_value (Some 1%N)) val st
    = (Returned (mkValue (Some 1%N) val), st).
Proof.
  intros val st. apply (unwrap_free_passes_the_reference_on (Some 1%N) val st).
  intros _. exists (mkCell 1 P_other). split; [reflexivity |]. cbn. lia.
Defined.

End Temporaries.

Section Callbacks.
Import ValueHandle StdFunction.
Context {V : Type}.
Variable JS_Call :
  JSValue → JSValue → list JSValue → JSContext → JSValue * JSContext.
Variable unwrap_free_R : JSValue → native V.
Variable func : JSValue.

(** The callee neither takes nor gives up a reference on the function
    object, and the conversion of the result does not either. *)
Hypothesis call_keeps_the_cell :
  ∀ st, heap (JS_Call func JS_UNDEFINED [] st).2 !! js_ptr func
        = heap st !! js_ptr func.
Hypothesis result_keeps_the_cell :
  ∀ st s, heap (unwrap_free_R (JS_Call func JS_UNDEFINED [] st).1 s).2
            !! js_ptr func
          = heap s !! js_ptr func.

Lemma invoke_gives_up_a_reference (st : JSContext) :
  JS_VALUE_HAS_REF_COUNT func = true →
  heap (invoke JS_Call unwrap_free_R [] func st).2 !! js_ptr func
  = match heap st !! js_ptr func with
    | Some cell =>
        if ref_count cell - 1 <=? 0 then None
        else Some (mkCell (ref_count cell - 1) (payload cell))
    | None => None
    end.
Proof.
  intros Href. unfold invoke. cbn [wrap_args].
  unfold mret, native_ret. cbn beta iota.
  pose proof (call_keeps_the_cell st) as Hcall.
  pose proof (result_keeps_the_cell st) as Hresult.
  destruct (JS_Call func JS_UNDEFINED [] st) as [result st1].
  cbn [fst snd] in Hcall, Hresult. cbn [free_all fold_left].
  assert (Hfree : heap (JS_FreeValue func st1) !! js_ptr func
                  = match heap st !! js_ptr func with
                    | Some cell =>
                        if ref_count cell - 1 <=? 0 then None
                        else Some (mkCell (ref_count cell - 1) (payload cell))
                    | None => None
                    end).
  { unfold JS_FreeValue. rewrite Href, Hcall.
    destruct (heap st !! js_ptr func) as [cell |] eqn:Hcell.
    - destruct (ref_count cell - 1 <=? 0); cbn [heap set_heap].
      + apply lookup_delete_eq.
      + apply lookup_insert_eq.
    - exact Hcall. }
  destruct (JS_IsException result); [exact Hfree |].
  rewrite Hresult. exact Hfree.
Qed.

(** X23: the callable obtained by unwrapping a function object as
    [std::function] takes one reference at [unwrap] and gives one up at
    every call: with a callee and a result conversion that leave the
    cell of the function object alone, a function object counted [rc]
    times before [unwrap] is counted [rc + 1 - k] times after [k] calls,
    and is freed by call [rc + 1]. *)
Theorem std_function_gives_up_a_reference_per_call :
  ∀ (st : JSContext) (rc : Z) (pl : cell_payload) (k : nat),
    JS_VALUE_HAS_REF_COUNT func = true →
    heap st !! js_ptr func = Some (mkCell rc pl) →
    1 ≤ rc →
    heap (invocations JS_Call unwrap_free_R func k (unwrap func st).2)
      !! js_ptr func
    = if Z.of_nat k <=? rc then Some (mkCell (rc + 1 - Z.of_nat k) pl)
      else None.
Proof.
  intros st rc pl k Href Hcell Hrc.
  assert (Hstart : heap (unwrap func st).2 !! js_ptr func
                   = Some (mkCell (rc + 1) pl)).
  { unfold unwrap, JS_DupValue. rewrite Href. cbn [snd heap set_heap].
    rewrite lookup_alter, decide_True by reflexivity. rewrite Hcell.
    reflexivity. }
  generalize dependent (unwrap func st).2. clear Hcell st.
  assert (Hgen : ∀ (k : nat) (s : JSContext) (c : Z),
            1 ≤ c →
            heap s !! js_ptr func = Some (mkCell c pl) →
            heap (invocations JS_Call unwrap_free_R func k s) !! js_ptr func
            = if Z.of_nat k <? c then Some (mkCell (c - Z.of_nat k) pl)
              else None).
  { clear k. induction k as [| k IH]; intros s c Hc Hs.
    - cbn [invocations]. rewrite Hs.
      destruct (Z.of_nat 0 <? c) eqn:E; [f_equal; f_equal; lia |].
      apply Z.ltb_ge in E. lia.
    - cbn [invocations].
      pose proof (invoke_gives_up_a_reference s Href) as Hstep.
      rewrite Hs in Hstep. cbn [ref_count payload] in Hstep.
      destruct (c - 1 <=? 0) eqn:E.
      + apply Z.leb_le in E.
        assert (Hnone : ∀ (n : nat) (s' : JSContext),
                  heap s' !! js_ptr func = None →
                  heap (invocations JS_Call unwrap_free_R func n s') !! js_ptr func
                  = None).
        { intros n. induction n as [| n IHn]; intros s' Hs'; [exact Hs' |].
          cbn [invocations]. apply IHn.
          rewrite invoke_gives_up_a_reference by exact Href.
          rewrite Hs'. reflexivity. }
        rewrite Hnone by exact Hstep.
        destruct (Z.of_nat (S k) <? c) eqn:E'; [apply Z.ltb_lt in E'; lia |].
        reflexivity.
      + apply Z.leb_gt in E. rewrite (IH _ (c - 1)) by (lia || exact Hstep).
        destruct (Z.of_nat k <? c - 1) eqn:E1, (Z.of_nat (S k) <? c) eqn:E2;
          try (apply Z.ltb_lt in E1); try (apply Z.ltb_lt in E2);
          try (apply Z.ltb_ge in E1); try (apply Z.ltb_ge in E2); try lia;
          [f_equal; f_equal; lia | reflexivity]. }
  intros s Hs. rewrite (Hgen k s (rc + 1)) by (lia || exact Hs).
  destruct (Z.of_nat k <? rc + 1) eqn:E1, (Z.of_nat k <=? rc) eqn:E2;
    try (apply Z.ltb_lt in E1); try (apply Z.leb_le in E2);
    try (apply Z.ltb_ge in E1); try (apply Z.leb_gt in E2); try lia;
    reflexivity.
Qed.

End Callbacks.

Lemma std_function_gives_up_a_reference_per_call_witness :
  let JS_Call := λ (_ _ : JSValue) (_ : list JSValue) (st : JSContext),
                   (JS_UNDEFINED, st) in
  let func := mkJSValue JS_TAG_OBJECT 7 in
  let st := mkContext None {[ 7 := mkCell 1 P_other ]} 1%N in
  heap (StdFunction.invocations JS_Call Detail.unwrap_free_void func 2
          (StdFunction.unwrap func st).2) !! 7
  = None.
Proof.
  intros JS_Call func st.
  exact (std_function_gives_up_a_reference_per_call JS_Call
           Detail.unwrap_free_void func
           (λ _, eq_refl) (λ _ _, eq_refl) st 1 P_other 2%nat
           eq_refl eq_refl ltac:(lia)).
Defined.
